(** * Word of the Day MCP server: a shallow embedding of [src/index.ts]

    The server answers tool calls by validating the argument object,
    issuing one HTTP GET to the dictionary API and formatting the first
    entry of the JSON reply as text.  The embedding keeps the shape of
    the TypeScript source: the interfaces become records, the zod schemas
    become parsers returning either the parsed value or a list of issues,
    [try]/[catch] and [await] become an error-and-trace monad over a
    world that answers [fetch], [response.json()] and [Math.random()]. *)

From Stdlib Require Import String Ascii List Bool Arith NArith ZArith QArith Lia.
From Stdlib Require Import DecimalString.
Import ListNotations.

Local Close Scope Q_scope.
Local Open Scope nat_scope.
Local Open Scope list_scope.
Local Open Scope string_scope.

(** ** Text helpers *)

(** The two characters that the source writes as escapes. *)
Definition nl : string := String "010"%char EmptyString.
Definition dq : string := String "034"%char EmptyString.

(** [`${n}`] for a non-negative integer. *)
Definition string_of_nat (n : nat) : string :=
  NilZero.string_of_uint (Nat.to_uint n).

Definition string_of_N (n : N) : string :=
  NilZero.string_of_uint (N.to_uint n).

(** [`${v}`] for a value that is a string or [undefined]. *)
Definition template (v : option string) : string :=
  match v with
  | Some s => s
  | None => "undefined"
  end.

(** JavaScript truthiness of a value that is a string or [undefined]. *)
Definition truthy (v : option string) : bool :=
  match v with
  | Some (String _ _) => true
  | _ => false
  end.

(** [Array.prototype.join]: an [undefined] element is printed as the
    empty string. *)
Fixpoint join (sep : string) (l : list (option string)) : string :=
  match l with
  | [] => EmptyString
  | [x] => match x with Some s => s | None => EmptyString end
  | x :: rest =>
      (match x with Some s => s | None => EmptyString end) ++ sep ++ join sep rest
  end.

(** [encodeURIComponent] on the UTF-8 bytes of a string: the unreserved
    characters [A-Z a-z 0-9 - _ . ! ~ * ' ( )] stay, every other byte
    becomes [%XX] with upper-case hexadecimal digits.  A string is held
    as its UTF-8 bytes and so has no unpaired surrogate, the one input on
    which the built-in throws [URIError] instead of returning. *)
Definition hex_digit (n : nat) : ascii :=
  match get n "0123456789ABCDEF" with
  | Some c => c
  | None => "0"%char
  end.

Definition unreserved (c : ascii) : bool :=
  let n := nat_of_ascii c in
  (Nat.leb 65 n && Nat.leb n 90) || (Nat.leb 97 n && Nat.leb n 122) ||
  (Nat.leb 48 n && Nat.leb n 57) ||
  existsb (Nat.eqb n) [45; 95; 46; 33; 126; 42; 39; 40; 41].

Fixpoint encodeURIComponent (s : string) : string :=
  match s with
  | EmptyString => EmptyString
  | String c rest =>
      if unreserved c then String c (encodeURIComponent rest)
      else
        let n := nat_of_ascii c in
        String "%"%char
          (String (hex_digit (n / 16))
             (String (hex_digit (n mod 16)) (encodeURIComponent rest)))
  end.

(** ** Values of the tool-call protocol *)

(** The argument of a tool call is an arbitrary JSON value, or absent. *)
#[local] Set Warnings "-register-all".
Inductive jsval : Type :=
| JUndefined
| JNull
| JBool (b : bool)
| JNumber (q : Q)
| JString (s : string)
| JArray (items : list jsval)
| JObject (fields : list (string * jsval)).

(** Property read [o.k] on an object literal; a missing key reads as
    [undefined]. *)
Fixpoint get_property (k : string) (fields : list (string * jsval)) : jsval :=
  match fields with
  | [] => JUndefined
  | (k', v) :: rest => if String.eqb k k' then v else get_property k rest
  end.

(** ** Dictionary API response types (the interfaces of the source)

    A field is [None] when the JSON object has no such key; a field that
    is there has the type its interface declares. *)

Record PhoneticInfo : Type := {
  text : option string;
  audio : option string
}.

Record WordDefinition : Type := {
  definition : option string;
  example : option string;
  synonyms : option (list string);
  antonyms : option (list string)
}.

Record Meaning : Type := {
  partOfSpeech : option string;
  definitions : option (list WordDefinition)
}.

Record WordEntry : Type := {
  word : option string;
  phonetic : option string;
  phonetics : option (list PhoneticInfo);
  origin : option string;
  meanings : option (list Meaning)
}.

(** ** Exceptions, completions and the tool result *)

(** A thrown value: an [Error] instance with its class name and message,
    or anything else ([error instanceof Error] is false). *)
Inductive thrown : Type :=
| JsError (name : string) (message : string)
| NotAnError.

Definition new_Error (message : string) : thrown := JsError "Error" message.

(** [TypeError] raised by V8 when a property of [undefined] is read. *)
Definition undefined_read (prop : string) : thrown :=
  JsError "TypeError"
    ("Cannot read properties of undefined (reading '" ++ prop ++ "')").

Inductive completion (A : Type) : Type :=
| Return (a : A)
| Throw (e : thrown).
Arguments Return {A} a.
Arguments Throw {A} e.

Record ContentItem : Type := {
  type : string;
  item_text : string
}.

Record ToolResult : Type := {
  content : list ContentItem
}.

(** [{ content: [{ type: 'text', text }] }] *)
Definition text_result (t : string) : ToolResult :=
  {| content := [ {| type := "text"; item_text := t |} ] |}.

(** ** The world outside the process

    [fetch] resolves with a response or rejects; [response.json()]
    resolves with the decoded body or rejects; [Math.random()] draws a
    number.  Every use is recorded in a trace. *)

(** The decoded body: [None] is JSON [null], [Some l] an array of
    entries. *)
Inductive JsonOutcome : Type :=
| JsonResolved (data : option (list WordEntry))
| JsonRejected (e : thrown).

Record Response : Type := {
  status : N;
  statusText : string;
  json_body : JsonOutcome
}.

(** [response.ok]: the status is in the range 200-299. *)
Definition ok (r : Response) : bool :=
  (200 <=? status r)%N && (status r <=? 299)%N.

Inductive FetchOutcome : Type :=
| FetchResolved (r : Response)
| FetchRejected (e : thrown).

(** The number [Math.random()] returns is a double in [[0, 1)]: the
    rational [mantissa / 2 ^ exponent] with a mantissa of at most 53 bits.
    Every double of that interval, subnormal ones included, is of this
    form, and every such pair is a double. *)
Definition is_unit_double (m e : Z) : bool :=
  ((0 <=? m) && (m <? 2 ^ 53) && (53 <=? e) && (e <=? 1074))%Z.

Record UnitDouble : Type := {
  mantissa : Z;
  exponent : Z;
  in_range : is_unit_double mantissa exponent = true
}.

Definition double_value (d : UnitDouble) : Q :=
  inject_Z (mantissa d) / inject_Z (2 ^ exponent d).

Inductive Event : Type :=
| EvFetch (url : string)
| EvJson
| EvRandom.

Record World : Type := {
  network : string -> FetchOutcome;
  random_source : nat -> UnitDouble;
  trace : list Event
}.

Definition log (ev : Event) (w : World) : World :=
  {| network := network w;
     random_source := random_source w;
     trace := (trace w ++ [ev])%list |}.

Definition is_fetch (ev : Event) : bool :=
  match ev with EvFetch _ => true | _ => false end.

Definition is_json (ev : Event) : bool :=
  match ev with EvJson => true | _ => false end.

Definition is_random (ev : Event) : bool :=
  match ev with EvRandom => true | _ => false end.

(** Number of outbound HTTP requests, body decodes and random draws
    recorded so far. *)
Definition requests (w : World) : nat := List.length (filter is_fetch (trace w)).
Definition decodes (w : World) : nat := List.length (filter is_json (trace w)).
Definition draws (w : World) : nat := List.length (filter is_random (trace w)).

(** ** The monad of an [async] function body *)

Definition M (A : Type) : Type := World -> completion A * World.

Definition ret {A : Type} (a : A) : M A := fun w => (Return a, w).

Definition throw {A : Type} (e : thrown) : M A := fun w => (Throw e, w).

Definition bind {A B : Type} (c : M A) (k : A -> M B) : M B :=
  fun w =>
    match c w with
    | (Return a, w') => k a w'
    | (Throw e, w') => (Throw e, w')
    end.

(** [try { body } catch (error) { handler }] *)
Definition try_catch {A : Type} (body : M A) (handler : thrown -> M A) : M A :=
  fun w =>
    match body w with
    | (Return a, w') => (Return a, w')
    | (Throw e, w') => handler e w'
    end.

Definition lift {A : Type} (c : completion A) : M A := fun w => (c, w).

Declare Scope js_scope.
Delimit Scope js_scope with js.
Notation "x <- c ;; k" := (bind c (fun x => k))
  (at level 100, c at next level, right associativity) : js_scope.
Notation "' pat <- c ;; k" := (bind c (fun x => match x with pat => k end))
  (at level 100, pat pattern, c at next level, right associativity) : js_scope.
Local Open Scope js_scope.

(** [await fetch(url)] *)
Definition fetch (url : string) : M Response :=
  fun w =>
    match network w url with
    | FetchResolved r => (Return r, log (EvFetch url) w)
    | FetchRejected e => (Throw e, log (EvFetch url) w)
    end.

(** [await response.json()] *)
Definition json (response : Response) : M (option (list WordEntry)) :=
  fun w =>
    match json_body response with
    | JsonResolved data => (Return data, log EvJson w)
    | JsonRejected e => (Throw e, log EvJson w)
    end.

(** [Math.random()] *)
Definition Math_random : M UnitDouble :=
  fun w => (Return (random_source w (draws w)), log EvRandom w).

(** [error instanceof Error ? error.message : fallback] *)
Definition message_or (fallback : string) (error : thrown) : string :=
  match error with
  | JsError _ message => message
  | NotAnError => fallback
  end.

(** ** Formatting of the first entry (the body of [getWordDefinition]
    after [const entry = data[0]])

    The source builds the text with [result += ...]; every step below
    takes the current [result] and gives the next one. *)

Definition nonempty (s : string) : bool :=
  match s with
  | EmptyString => false
  | String _ _ => true
  end.

(** [array.forEach((x, index) => { ... })] for a callback that updates
    [result] and may throw. *)
Fixpoint forEach {A : Type} (callback : A -> nat -> string -> completion string)
    (l : list A) (index : nat) (result : string) : completion string :=
  match l with
  | [] => Return result
  | x :: rest =>
      match callback x index result with
      | Return result' => forEach callback rest (S index) result'
      | Throw e => Throw e
      end
  end.

(** The joined texts of the [else if] branch:
    [entry.phonetics.filter(p => p.text).map(p => p.text).join(', ')]. *)
Definition phoneticTexts (ps : list PhoneticInfo) : string :=
  join ", " (map text (filter (fun p => truthy (text p)) ps)).

Definition pronunciation_line (s : string) : string :=
  "**Pronunciation:** " ++ s ++ nl ++ nl.

(** Add phonetic information. *)
Definition add_phonetic (entry : WordEntry) (result : string) : string :=
  if truthy (phonetic entry) then
    result ++ pronunciation_line (template (phonetic entry))
  else
    match phonetics entry with
    | Some (p :: ps) =>
        if nonempty (phoneticTexts (p :: ps)) then
          result ++ pronunciation_line (phoneticTexts (p :: ps))
        else result
    | _ => result
    end.

(** Add origin if available. *)
Definition add_origin (entry : WordEntry) (result : string) : string :=
  if truthy (origin entry) then
    result ++ "**Origin:** " ++ template (origin entry) ++ nl ++ nl
  else result.

Definition word_list_line (label : string) (l : option (list string)) : string :=
  match l with
  | Some (x :: xs) =>
      "      *" ++ label ++ ": " ++ join ", " (map Some (x :: xs)) ++ "*" ++ nl
  | _ => EmptyString
  end.

(** The callback of [meaning.definitions.forEach]. *)
Definition add_definition (def : WordDefinition) (defIndex : nat) (result : string)
    : completion string :=
  let result :=
    result ++ "   " ++ string_of_nat (defIndex + 1) ++ ". " ++ template (definition def) ++ nl in
  let result :=
    if truthy (example def) then
      result ++ "      *Example: " ++ dq ++ template (example def) ++ dq ++ "*" ++ nl
    else result in
  let result := result ++ word_list_line "Synonyms" (synonyms def) in
  let result := result ++ word_list_line "Antonyms" (antonyms def) in
  Return result.

(** The callback of [entry.meanings.forEach]. *)
Definition add_meaning (meaning : Meaning) (index : nat) (result : string)
    : completion string :=
  let result :=
    result ++ string_of_nat (index + 1) ++ ". **" ++ template (partOfSpeech meaning) ++ "**" ++ nl in
  match definitions meaning with
  | None => Throw (undefined_read "forEach")
  | Some defs =>
      match forEach add_definition defs 0 result with
      | Return result' => Return (result' ++ nl)
      | Throw e => Throw e
      end
  end.

(** Add meanings. *)
Definition add_meanings (entry : WordEntry) (result : string) : completion string :=
  let result := result ++ "**Meanings:**" ++ nl ++ nl in
  match meanings entry with
  | None => Throw (undefined_read "forEach")
  | Some ms => forEach add_meaning ms 0 result
  end.

(** [entry.phonetics.filter(p => p.audio).map(p => p.audio).filter(Boolean)],
    once [entry.phonetics] is an array. *)
Definition audioLinks (ps : list PhoneticInfo) : list (option string) :=
  filter truthy (map audio (filter (fun p => truthy (audio p)) ps)).

Definition add_audio_link (a : option string) (index : nat) (result : string)
    : completion string :=
  Return (result ++ string_of_nat (index + 1) ++ ". " ++ template a ++ nl).

(** Add audio pronunciation links if available. *)
Definition add_audio (entry : WordEntry) (result : string) : completion string :=
  match phonetics entry with
  | None => Throw (undefined_read "filter")
  | Some ps =>
      if Nat.ltb 0 (List.length (audioLinks ps)) then
        forEach add_audio_link (audioLinks ps) 0
          (result ++ "**Audio Pronunciation:**" ++ nl)
      else Return result
  end.

Definition header (entry : WordEntry) : string :=
  "**" ++ template (word entry) ++ "**".

Definition format_entry (entry : WordEntry) : completion string :=
  let result := header entry ++ nl ++ nl in
  let result := add_phonetic entry result in
  let result := add_origin entry result in
  match add_meanings entry result with
  | Return result' => add_audio entry result'
  | Throw e => Throw e
  end.

(** ** Validation schemas (zod)

    A schema reads a value found at a path and gives the parsed value or
    the issues it found.  [parse] throws a [ZodError] carrying the
    issues; the text zod prints for a list of issues is a parameter of
    the development. *)

Inductive ZodIssueCode : Type :=
| invalid_type
| too_small
| invalid_enum_value.

Record ZodIssue : Type := {
  code : ZodIssueCode;
  path : list string;
  custom_message : option string
}.

Definition ZodSchema (A : Type) : Type :=
  list string -> jsval -> list ZodIssue + A.

Definition issue (c : ZodIssueCode) (p : list string) (m : option string)
    : list ZodIssue :=
  [ {| code := c; path := p; custom_message := m |} ].

(** [z.string()] *)
Definition z_string : ZodSchema string :=
  fun p v =>
    match v with
    | JString s => inr s
    | _ => inl (issue invalid_type p None)
    end.

(** [schema.min(n, message)] on a string schema. *)
Definition z_min (n : nat) (message : string) (schema : ZodSchema string)
    : ZodSchema string :=
  fun p v =>
    match schema p v with
    | inr s =>
        if Nat.ltb (String.length s) n then inl (issue too_small p (Some message))
        else inr s
    | inl issues => inl issues
    end.

(** [schema.default(d)] *)
Definition z_default {A : Type} (d : jsval) (schema : ZodSchema A) : ZodSchema A :=
  fun p v =>
    match v with
    | JUndefined => schema p d
    | _ => schema p v
    end.

(** [schema.optional()] *)
Definition z_optional {A : Type} (schema : ZodSchema A) : ZodSchema (option A) :=
  fun p v =>
    match v with
    | JUndefined => inr None
    | _ =>
        match schema p v with
        | inr a => inr (Some a)
        | inl issues => inl issues
        end
    end.

(** The three difficulty levels of [z.enum(['easy', 'medium', 'hard'])]. *)
Inductive Difficulty : Type := easy | medium | hard.

Definition difficulty_of_string (s : string) : option Difficulty :=
  if String.eqb s "easy" then Some easy
  else if String.eqb s "medium" then Some medium
  else if String.eqb s "hard" then Some hard
  else None.

Definition z_enum_difficulty : ZodSchema Difficulty :=
  fun p v =>
    match v with
    | JString s =>
        match difficulty_of_string s with
        | Some d => inr d
        | None => inl (issue invalid_enum_value p None)
        end
    | _ => inl (issue invalid_type p None)
    end.

Definition issues_of {A : Type} (r : list ZodIssue + A) : list ZodIssue :=
  match r with
  | inl issues => issues
  | inr _ => []
  end.

(** [z.object({ word: z.string().min(1, 'Word cannot be empty'),
                language: z.string().default('en').optional() })] *)
Definition GetDefinitionArgsSchema : ZodSchema (string * option string) :=
  fun p v =>
    match v with
    | JObject fields =>
        let r_word :=
          z_min 1 "Word cannot be empty" z_string
            (p ++ ["word"])%list (get_property "word" fields) in
        let r_language :=
          z_optional (z_default (JString "en") z_string)
            (p ++ ["language"])%list (get_property "language" fields) in
        match r_word, r_language with
        | inr w, inr l => inr (w, l)
        | _, _ => inl (issues_of r_word ++ issues_of r_language)%list
        end
    | _ => inl (issue invalid_type p None)
    end.

(** [z.object({ difficulty:
                z.enum(['easy', 'medium', 'hard']).default('medium').optional() })] *)
Definition GetRandomWordArgsSchema : ZodSchema (option Difficulty) :=
  fun p v =>
    match v with
    | JObject fields =>
        z_optional (z_default (JString "medium") z_enum_difficulty)
          (p ++ ["difficulty"])%list (get_property "difficulty" fields)
    | _ => inl (issue invalid_type p None)
    end.

(** List of curated words by difficulty level. *)
Definition wordLists (d : Difficulty) : list string :=
  match d with
  | easy =>
      ["happy"; "house"; "water"; "light"; "music"; "friend"; "smile"; "peace";
       "dream"; "heart"; "love"; "hope"; "time"; "life"; "world"; "nature"]
  | medium =>
      ["serendipity"; "eloquent"; "resilient"; "magnificent"; "innovative";
       "perspective"; "authentic"; "curiosity"; "adventure"; "harmony";
       "wisdom"; "courage"; "gratitude"; "compassion"; "creativity"; "balance"]
  | hard =>
      ["ephemeral"; "ubiquitous"; "perspicacious"; "surreptitious"; "magnanimous";
       "obfuscate"; "ameliorate"; "propensity"; "vicissitude"; "perspicuity";
       "sesquipedalian"; "grandiloquent"; "pusillanimous"; "truculent"; "recalcitrant"]
  end.

(** A non-negative integer rounded to 53 significant bits, to nearest
    and ties to even: what a double keeps of an exact product. *)
Definition round53 (M : Z) : Z :=
  let s := (Z.log2 M + 1 - 53)%Z in
  if (s <=? 0)%Z then M
  else
    let q := (M / 2 ^ s)%Z in
    let rem := (M mod 2 ^ s)%Z in
    let half := (2 ^ (s - 1))%Z in
    if ((half <? rem) || ((rem =? half) && Z.odd q))%Z
    then ((q + 1) * 2 ^ s)%Z
    else (q * 2 ^ s)%Z.

(** [Math.floor(r * n)] for a double [r] of [[0, 1)] and a length [n]:
    the exact product [mantissa * n / 2 ^ exponent] is rounded to a
    double, then floored. *)
Definition random_index (r : UnitDouble) (n : nat) : Z :=
  (round53 (mantissa r * Z.of_nat n) / 2 ^ exponent r)%Z.

(** [words[i]]: [undefined] outside the array. *)
Definition index_word (words : list string) (i : Z) : jsval :=
  if (i <? 0)%Z then JUndefined
  else
    match nth_error words (Z.to_nat i) with
    | Some s => JString s
    | None => JUndefined
    end.

Definition not_found_404 (w : string) : string :=
  "No definition found for " ++ dq ++ w ++ dq ++
  ". Please check the spelling or try a different word.".

Definition not_found_empty (w : string) : string :=
  "No definition found for " ++ dq ++ w ++ dq ++ ".".

Definition api_url (language w : string) : string :=
  "https://api.dictionaryapi.dev/api/v2/entries/" ++ language ++ "/" ++
  encodeURIComponent w.

(** [ZodError.message] for a list of issues, as zod prints it. *)
Class ZodPrinter : Type :=
  zod_message : list ZodIssue -> string.

Section Server.

Context {printer : ZodPrinter}.

(** [schema.parse(args)] *)
Definition parse {A : Type} (schema : ZodSchema A) (args : jsval) : completion A :=
  match schema [] args with
  | inr a => Return a
  | inl issues => Throw (JsError "ZodError" (zod_message issues))
  end.

(** The [try] block of [getWordDefinition]. *)
Definition fetch_definition (w language : string) : M ToolResult :=
  response <- fetch (api_url language w) ;;
  if negb (ok response) then
    if (status response =? 404)%N then
      ret (text_result (not_found_404 w))
    else
      throw (new_Error ("Dictionary API error: " ++ string_of_N (status response)
                        ++ " " ++ statusText response))
  else
    data <- json response ;;
    match data with
    | None | Some [] => ret (text_result (not_found_empty w))
    | Some (entry :: _) =>
        result <- lift (format_entry entry) ;;
        ret (text_result result)
    end.

Definition getWordDefinition (args : jsval) : M ToolResult :=
  ' (w, language) <- lift (parse GetDefinitionArgsSchema args) ;;
  let language := match language with Some l => l | None => "en" end in
  try_catch (fetch_definition w language)
    (fun error =>
       throw (new_Error ("Failed to fetch definition for " ++ dq ++ w ++ dq ++ ": "
                         ++ message_or "Unknown error" error))).

Definition getRandomWord (args : jsval) : M ToolResult :=
  difficulty <- lift (parse GetRandomWordArgsSchema args) ;;
  let difficulty := match difficulty with Some d => d | None => medium end in
  let words := wordLists difficulty in
  r <- Math_random ;;
  let randomWord := index_word words (random_index r (List.length words)) in
  getWordDefinition (JObject [("word", randomWord); ("language", JString "en")]).

(** The switch of the [CallToolRequestSchema] handler. *)
Definition call_tool (name : string) (args : jsval) : M ToolResult :=
  if String.eqb name "get_word_definition" then getWordDefinition args
  else if String.eqb name "get_random_word" then getRandomWord args
  else throw (new_Error ("Unknown tool: " ++ name)).

(** The [CallToolRequestSchema] handler. *)
Definition handle_call_tool (name : string) (args : jsval) : M ToolResult :=
  try_catch (call_tool name args)
    (fun error =>
       let errorMessage := message_or "Unknown error occurred" error in
       ret (text_result ("Error: " ++ errorMessage))).

End Server.

(** ** Sample data: the documented reply for "hello", and worlds that
    serve fixed replies *)

Definition hello_entry : WordEntry :=
  {| word := Some "hello";
     phonetic := None;
     phonetics :=
       Some [ {| text := Some "hq'lqU";
                 audio := Some "//ssl.gstatic.com/dictionary/static/sounds/20200429/hello--_gb_1.mp3" |};
              {| text := Some "hE'lqU"; audio := None |} ];
     origin := Some "early 19th century: variant of earlier hollo ; related to holla.";
     meanings :=
       Some [ {| partOfSpeech := Some "exclamation";
                 definitions :=
                   Some [ {| definition := Some "used as a greeting or to begin a phone conversation.";
                             example := Some "hello there, Katie!";
                             synonyms := Some [];
                             antonyms := Some [] |} ] |};
              {| partOfSpeech := Some "noun";
                 definitions :=
                   Some [ {| definition := Some "an utterance of 'hello'; a greeting.";
                             example := Some "she was getting polite nods and hellos from people";
                             synonyms := Some ["greeting"; "salutation"];
                             antonyms := Some ["goodbye"] |} ] |} ] |}.

(** An entry whose JSON object has no [phonetics] key. *)
Definition bare_entry : WordEntry :=
  {| word := Some "hello";
     phonetic := Some "hq'lqU";
     phonetics := None;
     origin := None;
     meanings := Some [] |}.

(** An entry whose [phonetic] is the empty string. *)
Definition silent_entry : WordEntry :=
  {| word := Some "hello";
     phonetic := Some EmptyString;
     phonetics := Some [ {| text := Some "hE'lqU"; audio := None |} ];
     origin := None;
     meanings := Some [] |}.

(** The doubles 0, 0.5 and 0.6. *)
Definition draw_zero : UnitDouble :=
  {| mantissa := 0; exponent := 53; in_range := eq_refl |}.

Definition draw_half : UnitDouble :=
  {| mantissa := 2 ^ 52; exponent := 53; in_range := eq_refl |}.

Definition draw_six_tenths : UnitDouble :=
  {| mantissa := 5404319552844595; exponent := 53; in_range := eq_refl |}.

(** A world whose network answers every URL with the same outcome and
    whose random source always draws [r]. *)
Definition world_of (o : FetchOutcome) (r : UnitDouble) : World :=
  {| network := fun _ => o; random_source := fun _ => r; trace := [] |}.

Definition reply (st : N) (st_text : string) (b : JsonOutcome) : FetchOutcome :=
  FetchResolved {| status := st; statusText := st_text; json_body := b |}.

Definition syntax_error : thrown :=
  JsError "SyntaxError" "Unexpected end of JSON input".

Definition hello_fields : list (string * jsval) := [("word", JString "hello")].

Definition word_args (w : string) : jsval := JObject [("word", JString w)].

Definition world_404 : World :=
  world_of (reply 404 "Not Found" (JsonRejected syntax_error)) draw_zero.

Definition world_500 : World :=
  world_of (reply 500 "Internal Server Error" (JsonResolved None)) draw_zero.

Definition world_empty : World :=
  world_of (reply 200 "OK" (JsonResolved (Some []))) draw_half.

Definition world_hello : World :=
  world_of (reply 200 "OK" (JsonResolved (Some [hello_entry]))) draw_zero.

Definition world_hello_and_more : World :=
  world_of (reply 200 "OK" (JsonResolved (Some [hello_entry; hello_entry]))) draw_zero.

Definition world_bare : World :=
  world_of (reply 200 "OK" (JsonResolved (Some [bare_entry]))) draw_zero.

(** A stand-in for the text zod prints. *)
Definition sample_printer : ZodPrinter := fun issues =>
  match issues with
  | {| custom_message := Some m |} :: _ => m
  | _ => "Invalid input"
  end.

(** ** Requests that pass validation *)

(** The JSON value of an optional string argument. *)
Definition language_value (language : option string) : jsval :=
  match language with
  | Some l => JString l
  | None => JUndefined
  end.

(** [const { language = 'en' } = ...] *)
Definition language_or_en (language : option string) : string :=
  match language with
  | Some l => l
  | None => "en"
  end.

(** An argument object with a non-empty string [word] and, when the key
    is there, a string [language]. *)
Definition valid_definition_args (fields : list (string * jsval))
    (w : string) (language : option string) : Prop :=
  get_property "word" fields = JString w /\
  nonempty w = true /\
  get_property "language" fields = language_value language.

(** The JSON value of an optional difficulty argument. *)
Definition difficulty_value (d : option Difficulty) : jsval :=
  match d with
  | Some easy => JString "easy"
  | Some medium => JString "medium"
  | Some hard => JString "hard"
  | None => JUndefined
  end.

(** [const { difficulty = 'medium' } = ...] *)
Definition difficulty_or_medium (d : option Difficulty) : Difficulty :=
  match d with
  | Some d' => d'
  | None => medium
  end.

(** The [catch] clause of [getWordDefinition]. *)
Definition fetch_failure (w : string) (error : thrown) : thrown :=
  new_Error ("Failed to fetch definition for " ++ dq ++ w ++ dq ++ ": "
             ++ message_or "Unknown error" error).

(** The text up to the first line break. *)
Fixpoint first_line (s : string) : string :=
  match s with
  | EmptyString => EmptyString
  | String c rest =>
      if Ascii.eqb c "010"%char then EmptyString else String c (first_line rest)
  end.

(** An entry whose [meanings] are there, each with its [definitions]. *)
Definition meanings_complete (entry : WordEntry) : bool :=
  match meanings entry with
  | Some ms =>
      forallb (fun m => match definitions m with Some _ => true | None => false end) ms
  | None => false
  end.

(** An entry whose arrays are all there: [phonetics], [meanings] and the
    [definitions] of every meaning. *)
Definition complete (entry : WordEntry) : bool :=
  match phonetics entry with
  | Some _ => meanings_complete entry
  | None => false
  end.

(** The non-empty [text] values of a list of phonetics, in order. *)
Definition nonempty_texts (ps : list PhoneticInfo) : list string :=
  flat_map (fun p => match text p with
                     | Some (String c s) => [String c s]
                     | _ => []
                     end) ps.

(** [phonetics[].text] joined with [", "]; an entry without [phonetics]
    has nothing to join. *)
Definition joined_texts (entry : WordEntry) : string :=
  String.concat ", "
    (nonempty_texts (match phonetics entry with Some ps => ps | None => [] end)).

(** The claimed reading of the pronunciation step: the top-level
    [phonetic] whenever the key is there, otherwise the non-empty texts
    joined, otherwise nothing. *)
Definition pronunciation_as_claimed (entry : WordEntry) : option string :=
  match phonetic entry with
  | Some s => Some s
  | None =>
      if nonempty (joined_texts entry) then Some (joined_texts entry) else None
  end.

(** The reading the source supports: the top-level [phonetic] when the
    key is there and the string is not empty, otherwise the non-empty
    texts joined, otherwise nothing. *)
Definition pronunciation_shown (entry : WordEntry) : option string :=
  match phonetic entry with
  | Some (String c s) => Some (String c s)
  | _ =>
      if nonempty (joined_texts entry) then Some (joined_texts entry) else None
  end.

(** The URL a valid request is sent to. *)
Definition request_url (language : option string) (w : string) : string :=
  api_url (language_or_en language) w.

(** The message of the error thrown for a status that is neither 2xx nor
    404. *)
Definition api_error_message (r : Response) : string :=
  "Dictionary API error: " ++ string_of_N (status r) ++ " " ++ statusText r.

(** The issue zod raises for an empty [word]. *)
Definition empty_word_issue : ZodIssue :=
  {| code := too_small; path := ["word"];
     custom_message := Some "Word cannot be empty" |}.

(** The half-open interval [[j/n, (j+1)/n)] of draws. *)
Definition in_slot (r : Q) (j : Z) (n : nat) : Prop :=
  (inject_Z j / inject_Z (Z.of_nat n) <= r /\
   r < inject_Z (j + 1) / inject_Z (Z.of_nat n))%Q.

(** A draw moved up by the largest relative error of one rounding,
    [2 ^ -53]. *)
Definition stretched (r : Q) : Q :=
  r * (inject_Z (2 ^ 53 + 1) / inject_Z (2 ^ 53)).

(** The slot [[j/n, (j+1)/n)] shortened at its upper end, and lengthened
    at its lower end, by that relative error: the draws that surely give
    index [j], and the draws that may. *)
Definition inner_slot (r : Q) (j : Z) (n : nat) : Prop :=
  (inject_Z j / inject_Z (Z.of_nat n) <= r /\
   stretched r < inject_Z (j + 1) / inject_Z (Z.of_nat n))%Q.

Definition outer_slot (r : Q) (j : Z) (n : nat) : Prop :=
  (inject_Z j / inject_Z (Z.of_nat n) <= stretched r /\
   r < inject_Z (j + 1) / inject_Z (Z.of_nat n))%Q.

(** A world that draws 0.6. *)
Definition world_six_tenths : World :=
  world_of (reply 200 "OK" (JsonResolved (Some []))) draw_six_tenths.

(** A complete entry whose [word] holds a line break. *)
Definition multiline_entry : WordEntry :=
  {| word := Some ("a" ++ nl ++ "b");
     phonetic := None;
     phonetics := Some [];
     origin := None;
     meanings := Some [] |}.

Definition world_multiline : World :=
  world_of (reply 200 "OK" (JsonResolved (Some [multiline_entry]))) draw_zero.

(** The text of a pronunciation line that may be left out. *)
Definition optional_line (shown : option string) : string :=
  match shown with
  | Some s => pronunciation_line s
  | None => EmptyString
  end.

(** A step of the formatter only ever appends to [result]. *)
Definition appends (step : string -> completion string) : Prop :=
  forall result,
    step result =
    match step EmptyString with
    | Return t => Return (result ++ t)
    | Throw e => Throw e
    end.

(** ** The tool descriptors of the [ListToolsRequestSchema] handler *)

Record PropertySchema : Type := {
  prop_type : string;
  prop_description : string;
  prop_enum : option (list string);
  prop_default : option string
}.

Record InputSchema : Type := {
  schema_type : string;
  properties : list (string * PropertySchema);
  required : list string
}.

Record Tool : Type := {
  tool_name : string;
  tool_description : string;
  inputSchema : InputSchema
}.

(** The two elements of the [tools] array returned by the handler. *)
Definition get_word_definition_tool : Tool :=
  {| tool_name := "get_word_definition";
     tool_description :=
       "Get the definition, pronunciation, and meanings of a word using the Dictionary API";
     inputSchema :=
       {| schema_type := "object";
          properties :=
            [ ("word",
               {| prop_type := "string";
                  prop_description := "The word to get the definition for";
                  prop_enum := None;
                  prop_default := None |});
              ("language",
               {| prop_type := "string";
                  prop_description := "Language code (default: en)";
                  prop_enum := None;
                  prop_default := Some "en" |}) ];
          required := ["word"] |} |}.

Definition get_random_word_tool : Tool :=
  {| tool_name := "get_random_word";
     tool_description := "Get a random word with its definition for word of the day";
     inputSchema :=
       {| schema_type := "object";
          properties :=
            [ ("difficulty",
               {| prop_type := "string";
                  prop_description := "Difficulty level of the random word";
                  prop_enum := Some ["easy"; "medium"; "hard"];
                  prop_default := Some "medium" |}) ];
          required := [] |} |}.

Definition tools : list Tool :=
  [get_word_definition_tool; get_random_word_tool].

(** The handler itself: it answers with the array and touches nothing. *)
Definition handle_list_tools : M (list Tool) := ret tools.

(** ** Declarative reading of the formatted text *)

Definition concat_all (l : list string) : string :=
  fold_right append EmptyString l.

(** The blocks of the items of [l], the [k]-th item being given the index
    [start + k]. *)
Definition numbered {A : Type} (block : nat -> A -> string) (l : list A)
    (start : nat) : string :=
  concat_all (map (fun p => block (fst p) (snd p))
                  (combine (seq start (List.length l)) l)).

Definition example_line (def : WordDefinition) : string :=
  match example def with
  | Some (String c s) => "      *Example: " ++ dq ++ String c s ++ dq ++ "*" ++ nl
  | _ => EmptyString
  end.

Definition definition_block (defIndex : nat) (def : WordDefinition) : string :=
  "   " ++ string_of_nat (defIndex + 1) ++ ". " ++ template (definition def) ++ nl
  ++ example_line def
  ++ word_list_line "Synonyms" (synonyms def)
  ++ word_list_line "Antonyms" (antonyms def).

Definition meaning_block (index : nat) (meaning : Meaning) : string :=
  string_of_nat (index + 1) ++ ". **" ++ template (partOfSpeech meaning) ++ "**" ++ nl
  ++ numbered definition_block
       (match definitions meaning with Some defs => defs | None => [] end) 0
  ++ nl.

Definition origin_block (entry : WordEntry) : string :=
  match origin entry with
  | Some (String c s) => "**Origin:** " ++ String c s ++ nl ++ nl
  | _ => EmptyString
  end.

(** The non-empty [audio] values of a list of phonetics, in order. *)
Definition nonempty_audios (ps : list PhoneticInfo) : list string :=
  flat_map (fun p => match audio p with
                     | Some (String c s) => [String c s]
                     | _ => []
                     end) ps.

Definition audio_line (index : nat) (a : string) : string :=
  string_of_nat (index + 1) ++ ". " ++ a ++ nl.

Definition audio_block (ps : list PhoneticInfo) : string :=
  match nonempty_audios ps with
  | [] => EmptyString
  | a :: rest =>
      "**Audio Pronunciation:**" ++ nl ++ numbered audio_line (a :: rest) 0
  end.

Definition entry_text (entry : WordEntry) : string :=
  header entry ++ nl ++ nl
  ++ optional_line (pronunciation_shown entry)
  ++ origin_block entry
  ++ "**Meanings:**" ++ nl ++ nl
  ++ numbered meaning_block
       (match meanings entry with Some ms => ms | None => [] end) 0
  ++ audio_block (match phonetics entry with Some ps => ps | None => [] end).

(** ** More sample data *)

Definition fetch_failed : thrown := JsError "TypeError" "fetch failed".

(** A world without network. *)
Definition world_offline : World :=
  world_of (FetchRejected fetch_failed) draw_half.

(** A world whose 2xx reply does not decode. *)
Definition world_garbled : World :=
  world_of (reply 200 "OK" (JsonRejected syntax_error)) draw_half.

(** A world whose 2xx reply is the JSON value [null]. *)
Definition world_null : World :=
  world_of (reply 200 "OK" (JsonResolved None)) draw_half.

(** An entry with a meaning that has no [definitions]. *)
Definition hollow_entry : WordEntry :=
  {| word := Some "hello";
     phonetic := None;
     phonetics := Some [];
     origin := None;
     meanings := Some [ {| partOfSpeech := Some "noun"; definitions := None |} ] |}.

(** * Properties *)

(** *** Strings *)

Lemma append_assoc (a b c : string) : (a ++ b) ++ c = a ++ (b ++ c).
Proof. induction a as [|x a IH]; simpl; [reflexivity | now rewrite IH]. Qed.

Lemma append_empty_r (a : string) : a ++ EmptyString = a.
Proof. induction a as [|x a IH]; simpl; [reflexivity | now rewrite IH]. Qed.

Lemma first_line_append (a b : string) :
  first_line a = a -> first_line (a ++ nl ++ b) = a.
Proof.
  induction a as [|x a IH]; simpl; intros H.
  - reflexivity.
  - destruct (Ascii.eqb x "010"%char); [discriminate|].
    injection H as H. f_equal. now apply IH.
Qed.

Lemma first_line_concat (a b : string) :
  first_line a = a -> first_line b = b -> first_line (a ++ b) = a ++ b.
Proof.
  induction a as [|x a IH]; simpl; intros Ha Hb.
  - assumption.
  - destruct (Ascii.eqb x "010"%char); [discriminate|].
    injection Ha as Ha. f_equal. now apply IH.
Qed.

Lemma Return_inj {A : Type} (a b : A) : Return a = Return b -> a = b.
Proof. congruence. Qed.

Lemma append_empty_l (a : string) : EmptyString ++ a = a.
Proof. reflexivity. Qed.

Create Rewrite HintDb str.
#[local] Hint Rewrite append_assoc append_empty_r append_empty_l : str.

(** Normalise both sides of an equation between concatenations. *)
Ltac str_norm := cbv beta iota zeta; autorewrite with str; try reflexivity.

(** *** The formatter appends *)

Lemma forEach_appends {A : Type} (callback : A -> nat -> string -> completion string) :
  (forall x index, appends (callback x index)) ->
  forall l index, appends (forEach callback l index).
Proof.
  intros Hcb l. induction l as [|x rest IH]; intros index result; simpl.
  - now rewrite append_empty_r.
  - rewrite (Hcb x index result).
    destruct (callback x index EmptyString) as [t|e]; [|reflexivity].
    rewrite (IH (S index) (result ++ t)), (IH (S index) t).
    destruct (forEach callback rest (S index) EmptyString); [|reflexivity].
    now rewrite append_assoc.
Qed.

Lemma forEach_returns {A : Type} (callback : A -> nat -> string -> completion string)
    (good : A -> bool) :
  (forall x index result, good x = true -> exists t, callback x index result = Return t) ->
  forall l index result,
    forallb good l = true -> exists t, forEach callback l index result = Return t.
Proof.
  intros Hcb l. induction l as [|x rest IH]; intros index result Hl; simpl in *.
  - eauto.
  - apply andb_true_iff in Hl as [Hx Hrest].
    destruct (Hcb x index result Hx) as [t ->]. now apply IH.
Qed.

Lemma add_definition_appends def defIndex : appends (add_definition def defIndex).
Proof.
  intros result. unfold add_definition.
  destruct (truthy (example def)); str_norm.
Qed.

(** Rewrite a loop that starts from a non-empty [result] into the loop
    that starts from the empty text. *)
Ltac from_empty Hcb :=
  repeat match goal with
  | |- context [forEach ?cb ?l ?i (?r ++ ?s)] =>
      rewrite (forEach_appends cb Hcb l i (r ++ s))
  end.

Lemma add_meaning_appends meaning index : appends (add_meaning meaning index).
Proof.
  intros result. unfold add_meaning.
  destruct (definitions meaning) as [defs|]; [|reflexivity].
  from_empty add_definition_appends.
  destruct (forEach add_definition defs 0 EmptyString); str_norm.
Qed.

Lemma add_audio_link_appends a index : appends (add_audio_link a index).
Proof. intros result. unfold add_audio_link. str_norm. Qed.

Lemma add_meanings_appends entry : appends (add_meanings entry).
Proof.
  intros result. unfold add_meanings.
  destruct (meanings entry) as [ms|]; [|reflexivity].
  from_empty add_meaning_appends.
  destruct (forEach add_meaning ms 0 EmptyString); str_norm.
Qed.

Lemma add_audio_appends entry : appends (add_audio entry).
Proof.
  intros result. unfold add_audio.
  destruct (phonetics entry) as [ps|]; [|reflexivity].
  destruct (Nat.ltb 0 (List.length (audioLinks ps))); [|str_norm].
  from_empty add_audio_link_appends.
  destruct (forEach add_audio_link (audioLinks ps) 0 EmptyString); str_norm.
Qed.

Lemma join_concat sep (l : list string) :
  join sep (map Some l) = String.concat sep l.
Proof.
  induction l as [|x [|y l] IH]; [reflexivity | reflexivity |].
  change (x ++ sep ++ join sep (map Some (y :: l)) = x ++ sep ++ String.concat sep (y :: l)).
  now rewrite IH.
Qed.

Lemma filtered_texts ps :
  map text (filter (fun p => truthy (text p)) ps) = map Some (nonempty_texts ps).
Proof.
  induction ps as [|p ps IH]; [reflexivity|].
  cbn [filter nonempty_texts flat_map]. fold (nonempty_texts ps).
  destruct (text p) as [[|c s]|] eqn:Ht; cbn [truthy app]; try exact IH.
  cbn [map]. now rewrite Ht, IH.
Qed.

Lemma phoneticTexts_joined ps :
  phoneticTexts ps = String.concat ", " (nonempty_texts ps).
Proof. unfold phoneticTexts. now rewrite filtered_texts, join_concat. Qed.

Lemma add_phonetic_shown entry result :
  add_phonetic entry result = result ++ optional_line (pronunciation_shown entry).
Proof.
  unfold add_phonetic, pronunciation_shown, joined_texts, truthy.
  destruct (phonetic entry) as [[|c s]|]; cbn [template optional_line];
    try reflexivity;
    (destruct (phonetics entry) as [[|p ps]|];
     [ cbn; now rewrite append_empty_r
     | rewrite <- phoneticTexts_joined;
       destruct (nonempty (phoneticTexts (p :: ps)));
       cbn [optional_line]; [reflexivity | now rewrite append_empty_r]
     | cbn; now rewrite append_empty_r ]).
Qed.

Lemma add_origin_appends entry result :
  add_origin entry result = result ++ add_origin entry EmptyString.
Proof.
  unfold add_origin. destruct (truthy (origin entry)); simpl;
    [reflexivity | now rewrite append_empty_r].
Qed.

(** The text of a formatted entry, block by block. *)
Lemma format_entry_blocks entry t :
  format_entry entry = Return t ->
  exists rest,
    t = header entry ++ nl ++ nl ++ optional_line (pronunciation_shown entry)
        ++ add_origin entry EmptyString ++ "**Meanings:**" ++ nl ++ nl ++ rest.
Proof.
  unfold format_entry.
  rewrite add_meanings_appends.
  destruct (add_meanings entry EmptyString) as [m|e] eqn:Hm; [|discriminate].
  rewrite add_audio_appends.
  destruct (add_audio entry EmptyString) as [a|e]; [|discriminate].
  intros H. apply Return_inj in H. subst t.
  unfold add_meanings in Hm.
  destruct (meanings entry) as [ms|]; [|discriminate].
  revert Hm. from_empty add_meaning_appends.
  destruct (forEach add_meaning ms 0 EmptyString) as [m'|]; [|discriminate].
  intros Hm. apply Return_inj in Hm. subst m.
  exists (m' ++ a).
  rewrite add_origin_appends, add_phonetic_shown.
  str_norm.
Qed.

Lemma add_meaning_returns meaning index result :
  (match definitions meaning with Some _ => true | None => false end) = true ->
  exists t, add_meaning meaning index result = Return t.
Proof.
  unfold add_meaning. destruct (definitions meaning) as [defs|]; [|discriminate].
  intros _.
  destruct (forEach_returns add_definition (fun _ => true)) with
    (l := defs) (index := 0)
    (result := result ++ string_of_nat (index + 1) ++ ". **"
               ++ template (partOfSpeech meaning) ++ "**" ++ nl) as [t ->].
  - intros; unfold add_definition; eauto.
  - now induction defs.
  - eauto.
Qed.

Lemma add_meanings_returns entry result :
  meanings_complete entry = true ->
  exists t, add_meanings entry result = Return t.
Proof.
  unfold meanings_complete, add_meanings.
  destruct (meanings entry) as [ms|]; [|discriminate].
  intros Hc. now apply (forEach_returns add_meaning _ add_meaning_returns).
Qed.

Lemma add_audio_returns entry result :
  phonetics entry <> None -> exists t, add_audio entry result = Return t.
Proof.
  unfold add_audio. destruct (phonetics entry) as [ps|]; [intros _|congruence].
  destruct (Nat.ltb 0 (List.length (audioLinks ps))); [|eauto].
  apply (forEach_returns add_audio_link (fun _ => true)).
  - intros; unfold add_audio_link; eauto.
  - now induction (audioLinks ps).
Qed.

(** Formatting a complete entry gives a text. *)
Lemma format_entry_returns entry :
  complete entry = true -> exists t, format_entry entry = Return t.
Proof.
  unfold complete, format_entry.
  destruct (phonetics entry) as [ps|] eqn:Hp; [|discriminate].
  intros Hc.
  match goal with
  | |- context [add_meanings entry ?r] =>
      destruct (add_meanings_returns entry r Hc) as [t ->]
  end.
  apply add_audio_returns. congruence.
Qed.

(** Formatting an entry without [phonetics] throws a [TypeError]; it
    comes from the audio step when the meanings are complete. *)
Lemma format_entry_without_phonetics entry :
  phonetics entry = None ->
  exists prop,
    format_entry entry = Throw (undefined_read prop) /\
    (meanings_complete entry = true -> prop = "filter").
Proof.
  intros Hp. unfold format_entry.
  match goal with
  | |- context [add_meanings entry ?r] =>
      destruct (add_meanings entry r) as [m|e] eqn:Hm;
      [| assert (Hnot : meanings_complete entry = true -> False)
           by (intros Hc; destruct (add_meanings_returns entry r Hc) as [t Ht];
               congruence) ]
  end.
  - exists "filter". unfold add_audio. rewrite Hp. now split.
  - exists "forEach". split; [|intros Hc; now elim Hnot].
    f_equal. clear Hnot. unfold add_meanings in Hm.
    destruct (meanings entry) as [ms|]; [|now inversion Hm].
    revert Hm. generalize 0 as index.
    match goal with |- context [forEach _ _ _ ?r] => generalize r end.
    induction ms as [|m ms IH]; intros result index; simpl; [discriminate|].
    unfold add_meaning at 1.
    destruct (definitions m) as [defs|]; [|now intros H; inversion H].
    match goal with |- context [forEach add_definition defs 0 ?r] =>
      destruct (forEach_returns add_definition (fun _ => true)) with
        (l := defs) (index := 0) (result := r) as [t ->]
    end.
    + intros; unfold add_definition; eauto.
    + now induction defs.
    + apply IH.
Qed.

(** *** The trace *)

Lemma decodes_log ev world :
  decodes (log ev world) = (if is_json ev then S (decodes world) else decodes world).
Proof.
  unfold decodes, log; cbn [trace].
  rewrite filter_app, length_app. cbn [filter].
  destruct (is_json ev); cbn [List.length]; lia.
Qed.

Lemma requests_log ev world :
  requests (log ev world) = (if is_fetch ev then S (requests world) else requests world).
Proof.
  unfold requests, log; cbn [trace].
  rewrite filter_app, length_app. cbn [filter].
  destruct (is_fetch ev); cbn [List.length]; lia.
Qed.

(** *** The index drawn from a random number *)

Lemma in_slot_scaled (r : Q) (j : Z) (n : nat) :
  0 < n ->
  in_slot r j n <->
  (inject_Z j <= r * inject_Z (Z.of_nat n) /\
   r * inject_Z (Z.of_nat n) < inject_Z (j + 1))%Q.
Proof.
  intros Hn. unfold in_slot.
  assert (Hpos : (0 < inject_Z (Z.of_nat n))%Q).
  { change 0%Q with (inject_Z 0). rewrite <- Zlt_Qlt. lia. }
  assert (Hnz : ~ (inject_Z (Z.of_nat n) == 0)%Q).
  { intros H. rewrite H in Hpos. now apply Qlt_irrefl in Hpos. }
  rewrite <- (Qmult_le_r _ _ _ Hpos), <- (Qmult_lt_r _ _ _ Hpos).
  unfold Qdiv.
  rewrite <- !Qmult_assoc, !(Qmult_comm (/ _)), !Qmult_inv_r, !Qmult_1_r by assumption.
  reflexivity.
Qed.

Local Open Scope Z_scope.

(** **** Rounding to 53 bits *)

Lemma round53_cases M :
  0 <= M ->
  let s := Z.log2 M + 1 - 53 in
  (s <= 0 /\ round53 M = M) \/
  (0 < s /\ exists q rem,
      M = q * 2 ^ s + rem /\ 0 <= rem < 2 ^ s /\ 0 <= q /\
      2 ^ (s - 1) * 2 ^ 53 <= M /\
      ((round53 M = q * 2 ^ s /\ rem <= 2 ^ (s - 1)) \/
       (round53 M = (q + 1) * 2 ^ s /\ 2 ^ (s - 1) <= rem))).
Proof.
  intros HM s. unfold round53. fold s.
  destruct (Z.leb_spec s 0) as [Hs|Hs]; [left; now split|].
  right. split; [assumption|].
  assert (Hpow : 0 < 2 ^ s) by (apply Z.pow_pos_nonneg; lia).
  exists (M / 2 ^ s), (M mod 2 ^ s).
  pose proof (Z.div_mod M (2 ^ s) ltac:(lia)) as Hdm.
  pose proof (Z.mod_pos_bound M (2 ^ s) Hpow) as Hrem.
  assert (Hq : 0 <= M / 2 ^ s) by (apply Z.div_pos; lia).
  assert (Hlog : 2 ^ (s - 1) * 2 ^ 53 <= M).
  { rewrite <- Z.pow_add_r by lia.
    replace (s - 1 + 53) with (Z.log2 M) by (unfold s; lia).
    apply Z.log2_spec. unfold s in Hs.
    destruct (Z.eq_dec M 0) as [->|]; [cbn in Hs; lia | lia]. }
  repeat split; try lia.
  destruct (Z.ltb_spec (2 ^ (s - 1)) (M mod 2 ^ s)) as [Hgt|Hle]; cbn [orb].
  - right. split; [reflexivity | lia].
  - destruct (Z.eqb_spec (M mod 2 ^ s) (2 ^ (s - 1))) as [Heq|Hne]; cbn [andb].
    + destruct (Z.odd (M / 2 ^ s)); [right | left]; split; try reflexivity; lia.
    + left. split; [reflexivity | lia].
Qed.

Lemma round53_nonneg M : 0 <= M -> 0 <= round53 M.
Proof.
  intros HM. destruct (round53_cases M HM) as [[_ ->]|(Hs & q & rem & HMq & Hrem & Hq & _ & H)];
    [assumption|].
  assert (0 < 2 ^ (Z.log2 M + 1 - 53)) by (apply Z.pow_pos_nonneg; lia).
  destruct H as [[-> _]|[-> _]]; nia.
Qed.

Lemma round53_relative M : 0 <= M -> round53 M * 2 ^ 53 <= M * (2 ^ 53 + 1).
Proof.
  intros HM.
  destruct (round53_cases M HM) as [[_ ->]|(Hs & q & rem & HMq & Hrem & Hq & Hlog & H)];
    [lia|].
  set (s := Z.log2 M + 1 - 53) in *.
  assert (Hpow : 2 ^ s = 2 * 2 ^ (s - 1)).
  { rewrite <- Z.pow_succ_r by lia. f_equal. lia. }
  destruct H as [[-> Hr]|[-> Hr]]; lia.
Qed.

Lemma round53_above_multiple M c t :
  0 <= M -> Z.log2 M + 1 - 53 <= t -> c * 2 ^ t <= M -> c * 2 ^ t <= round53 M.
Proof.
  intros HM Ht Hc.
  destruct (round53_cases M HM) as [[_ ->]|(Hs & q & rem & HMq & Hrem & Hq & _ & H)];
    [assumption|].
  set (s := Z.log2 M + 1 - 53) in *.
  assert (Hsplit : 2 ^ t = 2 ^ (t - s) * 2 ^ s).
  { rewrite <- Z.pow_add_r by lia. f_equal. lia. }
  assert (Hps : 0 < 2 ^ s) by (apply Z.pow_pos_nonneg; lia).
  assert (Hk : c * 2 ^ (t - s) <= q) by nia.
  destruct H as [[-> _]|[-> _]]; nia.
Qed.

Lemma round53_below_multiple M c t :
  0 <= M -> Z.log2 M + 1 - 53 <= t -> M <= c * 2 ^ t -> round53 M <= c * 2 ^ t.
Proof.
  intros HM Ht Hc.
  destruct (round53_cases M HM) as [[_ ->]|(Hs & q & rem & HMq & Hrem & Hq & _ & H)];
    [assumption|].
  set (s := Z.log2 M + 1 - 53) in *.
  assert (Hsplit : 2 ^ t = 2 ^ (t - s) * 2 ^ s).
  { rewrite <- Z.pow_add_r by lia. f_equal. lia. }
  assert (Hps : 0 < 2 ^ s) by (apply Z.pow_pos_nonneg; lia).
  assert (Hhalf : 0 < 2 ^ (s - 1)) by (apply Z.pow_pos_nonneg; lia).
  destruct H as [[-> _]|[-> Hr]]; [nia|].
  assert (Hk : q < c * 2 ^ (t - s)) by nia.
  nia.
Qed.

Lemma round53_exact m k :
  0 <= m < 2 ^ 53 -> 0 <= k -> round53 (m * 2 ^ k) = m * 2 ^ k.
Proof.
  intros Hm Hk.
  assert (Hpk : 0 < 2 ^ k) by (apply Z.pow_pos_nonneg; lia).
  assert (HM : 0 <= m * 2 ^ k) by nia.
  apply Z.le_antisymm.
  - apply round53_below_multiple; [assumption| |lia].
    destruct (Z.eq_dec m 0) as [->|Hm0]; [cbn; lia|].
    assert (Z.log2 (m * 2 ^ k) < 53 + k); [|lia].
    apply Z.log2_lt_pow2; [nia|]. rewrite Z.pow_add_r by lia. nia.
  - apply round53_above_multiple; [assumption| |lia].
    destruct (Z.eq_dec m 0) as [->|Hm0]; [cbn; lia|].
    assert (Z.log2 (m * 2 ^ k) < 53 + k); [|lia].
    apply Z.log2_lt_pow2; [nia|]. rewrite Z.pow_add_r by lia. nia.
Qed.

(** **** Rationals with a power of two below *)

Lemma Qdiv_le_iff (a r N : Q) : (0 < N)%Q -> (a / N <= r <-> a <= r * N)%Q.
Proof.
  intros HN.
  assert (Hnz : ~ (N == 0)%Q) by (intros H; rewrite H in HN; now apply Qlt_irrefl in HN).
  rewrite <- (Qmult_le_r (a / N) r N HN).
  unfold Qdiv. rewrite <- Qmult_assoc, (Qmult_comm (/ N)), Qmult_inv_r, Qmult_1_r by assumption.
  reflexivity.
Qed.

Lemma Qlt_div_iff (a r N : Q) : (0 < N)%Q -> (r < a / N <-> r * N < a)%Q.
Proof.
  intros HN.
  assert (Hnz : ~ (N == 0)%Q) by (intros H; rewrite H in HN; now apply Qlt_irrefl in HN).
  rewrite <- (Qmult_lt_r r (a / N) N HN).
  unfold Qdiv. rewrite <- Qmult_assoc, (Qmult_comm (/ N)), Qmult_inv_r, Qmult_1_r by assumption.
  reflexivity.
Qed.

Lemma inject_Z_pos (z : Z) : 0 < z -> (0 < inject_Z z)%Q.
Proof. intros H. change 0%Q with (inject_Z 0). now rewrite <- Zlt_Qlt. Qed.


Lemma Qle_div_iff (a b N : Q) : (0 < N)%Q -> (a <= b / N <-> a * N <= b)%Q.
Proof.
  intros HN.
  assert (Hnz : ~ (N == 0)%Q) by (intros H; rewrite H in HN; now apply Qlt_irrefl in HN).
  rewrite <- (Qmult_le_r a (b / N) N HN).
  unfold Qdiv. rewrite <- Qmult_assoc, (Qmult_comm (/ N)), Qmult_inv_r, Qmult_1_r by assumption.
  reflexivity.
Qed.

Lemma Qdiv_lt_iff (a b N : Q) : (0 < N)%Q -> (b / N < a <-> b < a * N)%Q.
Proof.
  intros HN.
  assert (Hnz : ~ (N == 0)%Q) by (intros H; rewrite H in HN; now apply Qlt_irrefl in HN).
  rewrite <- (Qmult_lt_r (b / N) a N HN).
  unfold Qdiv. rewrite <- Qmult_assoc, (Qmult_comm (/ N)), Qmult_inv_r, Qmult_1_r by assumption.
  reflexivity.
Qed.

Lemma ratio_times (m P n : Z) :
  (inject_Z m / inject_Z P * inject_Z n == inject_Z (m * n) / inject_Z P)%Q.
Proof. rewrite inject_Z_mult. unfold Qdiv. ring. Qed.

Lemma ratio_times_ge (j m P n : Z) :
  0 < P ->
  (inject_Z j <= inject_Z m / inject_Z P * inject_Z n)%Q <-> j * P <= m * n.
Proof.
  intros HP. rewrite ratio_times, (Qle_div_iff _ _ _ (inject_Z_pos P HP)).
  now rewrite <- inject_Z_mult, <- Zle_Qle.
Qed.

Lemma ratio_times_lt (j m P n : Z) :
  0 < P ->
  (inject_Z m / inject_Z P * inject_Z n < inject_Z j)%Q <-> m * n < j * P.
Proof.
  intros HP. rewrite ratio_times, (Qdiv_lt_iff _ _ _ (inject_Z_pos P HP)).
  now rewrite <- inject_Z_mult, <- Zlt_Qlt.
Qed.

Lemma stretched_ratio (m P : Z) :
  (stretched (inject_Z m / inject_Z P) ==
   inject_Z (m * (2 ^ 53 + 1)) / inject_Z (P * 2 ^ 53))%Q.
Proof.
  unfold stretched. rewrite !inject_Z_mult. unfold Qdiv.
  rewrite Qinv_mult_distr. ring.
Qed.

Lemma stretched_times_ge (j m P n : Z) :
  0 < P ->
  (inject_Z j <= stretched (inject_Z m / inject_Z P) * inject_Z n)%Q <->
  j * P * 2 ^ 53 <= m * n * (2 ^ 53 + 1).
Proof.
  intros HP. rewrite stretched_ratio, ratio_times_ge by lia.
  split; intros H; lia.
Qed.

Lemma stretched_times_lt (j m P n : Z) :
  0 < P ->
  (stretched (inject_Z m / inject_Z P) * inject_Z n < inject_Z j)%Q <->
  m * n * (2 ^ 53 + 1) < j * P * 2 ^ 53.
Proof.
  intros HP. rewrite stretched_ratio, ratio_times_lt by lia.
  split; intros H; lia.
Qed.

(** **** The index *)

Lemma unit_double_range (d : UnitDouble) :
  0 <= mantissa d < 2 ^ 53 /\ 53 <= exponent d <= 1074.
Proof.
  pose proof (in_range d) as H. unfold is_unit_double in H.
  repeat (apply andb_true_iff in H as [H ?]). lia.
Qed.

Lemma unit_double_power (d : UnitDouble) : 2 ^ 53 <= 2 ^ exponent d.
Proof.
  destruct (unit_double_range d) as [_ He]. apply Z.pow_le_mono_r; lia.
Qed.

Lemma product_fits (d : UnitDouble) (n : nat) :
  Z.of_nat n < 2 ^ 53 ->
  Z.log2 (mantissa d * Z.of_nat n) + 1 - 53 <= exponent d.
Proof.
  intros Hn. destruct (unit_double_range d) as [Hm He].
  destruct (Z.eq_dec (mantissa d * Z.of_nat n) 0) as [->|Hnz]; [cbn; lia|].
  assert (Z.log2 (mantissa d * Z.of_nat n) < 106); [|lia].
  apply Z.log2_lt_pow2; [nia|].
  change (2 ^ 106) with (2 ^ 53 * 2 ^ 53). nia.
Qed.

Lemma random_index_range (d : UnitDouble) (n : nat) :
  (0 < n)%nat -> 0 <= random_index d n < Z.of_nat n.
Proof.
  intros Hn. destruct (unit_double_range d) as [Hm He].
  pose proof (unit_double_power d) as Hpow.
  assert (HM : 0 <= mantissa d * Z.of_nat n) by nia.
  pose proof (round53_nonneg _ HM) as H0.
  pose proof (round53_relative _ HM) as Hrel.
  unfold random_index. split.
  - apply Z.div_pos; lia.
  - apply Z.div_lt_upper_bound; [lia|].
    assert (round53 (mantissa d * Z.of_nat n) < 2 ^ 53 * Z.of_nat n); nia.
Qed.

Lemma random_index_at_least (d : UnitDouble) (n : nat) (j : Z) :
  Z.of_nat n < 2 ^ 53 ->
  j * 2 ^ exponent d <= mantissa d * Z.of_nat n ->
  j <= random_index d n.
Proof.
  intros Hn Hj. destruct (unit_double_range d) as [Hm He].
  pose proof (unit_double_power d) as Hpow.
  assert (HM : 0 <= mantissa d * Z.of_nat n) by nia.
  unfold random_index. apply Z.div_le_lower_bound; [lia|].
  rewrite Z.mul_comm.
  apply round53_above_multiple; [assumption | now apply product_fits | assumption].
Qed.

Lemma random_index_at_most (d : UnitDouble) (n : nat) (j : Z) :
  mantissa d * Z.of_nat n * (2 ^ 53 + 1) < (j + 1) * 2 ^ exponent d * 2 ^ 53 ->
  random_index d n <= j.
Proof.
  intros Hj. destruct (unit_double_range d) as [Hm He].
  pose proof (unit_double_power d) as Hpow.
  assert (HM : 0 <= mantissa d * Z.of_nat n) by nia.
  pose proof (round53_relative _ HM) as Hrel.
  unfold random_index.
  assert (round53 (mantissa d * Z.of_nat n) / 2 ^ exponent d < j + 1); [|lia].
  apply Z.div_lt_upper_bound; [lia|]. nia.
Qed.

Lemma random_index_bounds (d : UnitDouble) (n : nat) :
  random_index d n * 2 ^ exponent d <= round53 (mantissa d * Z.of_nat n) /\
  round53 (mantissa d * Z.of_nat n) < (random_index d n + 1) * 2 ^ exponent d.
Proof.
  pose proof (unit_double_power d) as Hpow. unfold random_index.
  pose proof (Z.div_mod (round53 (mantissa d * Z.of_nat n)) (2 ^ exponent d)
                ltac:(lia)) as Hdm.
  pose proof (Z.mod_pos_bound (round53 (mantissa d * Z.of_nat n)) (2 ^ exponent d)
                ltac:(lia)) as Hrem.
  nia.
Qed.

Lemma random_index_inv (d : UnitDouble) (n : nat) (j : Z) :
  Z.of_nat n < 2 ^ 53 ->
  random_index d n = j ->
  mantissa d * Z.of_nat n < (j + 1) * 2 ^ exponent d /\
  j * 2 ^ exponent d * 2 ^ 53 <= mantissa d * Z.of_nat n * (2 ^ 53 + 1).
Proof.
  intros Hn <-. destruct (unit_double_range d) as [Hm He].
  assert (HM : 0 <= mantissa d * Z.of_nat n) by nia.
  destruct (random_index_bounds d n) as [Hlo Hhi].
  split.
  - destruct (Z.lt_ge_cases (mantissa d * Z.of_nat n)
                ((random_index d n + 1) * 2 ^ exponent d)) as [H|H];
      [assumption|].
    apply (round53_above_multiple _ _ _ HM (product_fits d n Hn)) in H. lia.
  - pose proof (round53_relative _ HM). nia.
Qed.

Lemma random_index_sixteen (d : UnitDouble) (j : Z) :
  random_index d 16 = j <->
  j * 2 ^ exponent d <= mantissa d * 16 /\
  mantissa d * 16 < (j + 1) * 2 ^ exponent d.
Proof.
  destruct (unit_double_range d) as [Hm He].
  pose proof (unit_double_power d) as Hpow.
  destruct (random_index_bounds d 16) as [Hlo Hhi].
  change (Z.of_nat 16) with (2 ^ 4) in Hlo, Hhi.
  rewrite (round53_exact (mantissa d) 4) in Hlo, Hhi by lia.
  change (2 ^ 4) with 16 in Hlo, Hhi.
  split.
  - now intros <-.
  - intros [Hj1 Hj2]. nia.
Qed.

Lemma value_in_slot (d : UnitDouble) (j : Z) (n : nat) :
  (0 < n)%nat ->
  in_slot (double_value d) j n <->
  j * 2 ^ exponent d <= mantissa d * Z.of_nat n /\
  mantissa d * Z.of_nat n < (j + 1) * 2 ^ exponent d.
Proof.
  intros Hn. pose proof (unit_double_power d) as Hpow.
  assert (HP : 0 < 2 ^ exponent d) by lia.
  rewrite (in_slot_scaled _ _ _ Hn). unfold double_value.
  split; intros [H1 H2]; split.
  - now apply (proj1 (ratio_times_ge _ _ _ _ HP)).
  - now apply (proj1 (ratio_times_lt _ _ _ _ HP)).
  - now apply (proj2 (ratio_times_ge _ _ _ _ HP)).
  - now apply (proj2 (ratio_times_lt _ _ _ _ HP)).
Qed.

Lemma value_in_inner_slot (d : UnitDouble) (j : Z) (n : nat) :
  (0 < n)%nat ->
  inner_slot (double_value d) j n <->
  j * 2 ^ exponent d <= mantissa d * Z.of_nat n /\
  mantissa d * Z.of_nat n * (2 ^ 53 + 1) < (j + 1) * 2 ^ exponent d * 2 ^ 53.
Proof.
  intros Hn. pose proof (unit_double_power d) as Hpow.
  assert (HN : (0 < inject_Z (Z.of_nat n))%Q) by (apply inject_Z_pos; lia).
  assert (HP : 0 < 2 ^ exponent d) by lia.
  unfold inner_slot, double_value.
  split; intros [H1 H2]; split.
  - apply (proj1 (ratio_times_ge _ _ _ _ HP)).
    now apply (proj1 (Qdiv_le_iff _ _ _ HN)).
  - apply (proj1 (stretched_times_lt _ _ _ _ HP)).
    now apply (proj1 (Qlt_div_iff _ _ _ HN)).
  - apply (proj2 (Qdiv_le_iff _ _ _ HN)).
    now apply (proj2 (ratio_times_ge _ _ _ _ HP)).
  - apply (proj2 (Qlt_div_iff _ _ _ HN)).
    now apply (proj2 (stretched_times_lt _ _ _ _ HP)).
Qed.

Lemma value_in_outer_slot (d : UnitDouble) (j : Z) (n : nat) :
  (0 < n)%nat ->
  outer_slot (double_value d) j n <->
  j * 2 ^ exponent d * 2 ^ 53 <= mantissa d * Z.of_nat n * (2 ^ 53 + 1) /\
  mantissa d * Z.of_nat n < (j + 1) * 2 ^ exponent d.
Proof.
  intros Hn. pose proof (unit_double_power d) as Hpow.
  assert (HN : (0 < inject_Z (Z.of_nat n))%Q) by (apply inject_Z_pos; lia).
  assert (HP : 0 < 2 ^ exponent d) by lia.
  unfold outer_slot, double_value.
  split; intros [H1 H2]; split.
  - apply (proj1 (stretched_times_ge _ _ _ _ HP)).
    now apply (proj1 (Qdiv_le_iff _ _ _ HN)).
  - apply (proj1 (ratio_times_lt _ _ _ _ HP)).
    now apply (proj1 (Qlt_div_iff _ _ _ HN)).
  - apply (proj2 (Qdiv_le_iff _ _ _ HN)).
    now apply (proj2 (stretched_times_ge _ _ _ _ HP)).
  - apply (proj2 (Qlt_div_iff _ _ _ HN)).
    now apply (proj2 (ratio_times_lt _ _ _ _ HP)).
Qed.

Local Close Scope Z_scope.

Lemma index_word_in (words : list string) (i : Z) :
  (0 <= i < Z.of_nat (List.length words))%Z ->
  exists chosen,
    nth_error words (Z.to_nat i) = Some chosen /\
    In chosen words /\
    index_word words i = JString chosen.
Proof.
  intros Hi. unfold index_word.
  destruct (Z.ltb_spec i 0) as [Hneg|_]; [lia|].
  destruct (nth_error words (Z.to_nat i)) as [chosen|] eqn:Hn.
  - exists chosen. repeat split. eapply nth_error_In; eassumption.
  - apply nth_error_None in Hn. lia.
Qed.

Section Properties.

Context {printer : ZodPrinter}.

(** *** Validation *)

Lemma parse_valid_definition_args fields w language :
  valid_definition_args fields w language ->
  parse GetDefinitionArgsSchema (JObject fields) = Return (w, language).
Proof.
  intros (Hw & Hne & Hl).
  unfold parse, GetDefinitionArgsSchema, z_min, z_string.
  rewrite Hw, Hl.
  destruct w as [|c w']; [discriminate|].
  destruct language; reflexivity.
Qed.

Lemma parse_difficulty fields d :
  get_property "difficulty" fields = difficulty_value d ->
  parse GetRandomWordArgsSchema (JObject fields) = Return d.
Proof.
  intros Hd.
  unfold parse, GetRandomWordArgsSchema.
  rewrite Hd.
  destruct d as [[| |]|]; reflexivity.
Qed.

Lemma parse_throws_ZodError {A : Type} (schema : ZodSchema A) args e :
  parse schema args = Throw e ->
  exists issues, e = JsError "ZodError" (zod_message issues).
Proof.
  unfold parse.
  destruct (schema [] args) as [issues|a]; intros H; inversion H.
  now exists issues.
Qed.

(** *** What a call of [getWordDefinition] unfolds to *)

Lemma getWordDefinition_valid fields w language world :
  valid_definition_args fields w language ->
  getWordDefinition (JObject fields) world =
  try_catch (fetch_definition w (language_or_en language))
    (fun error => throw (fetch_failure w error)) world.
Proof.
  intros Hv.
  unfold getWordDefinition, bind, lift.
  rewrite (parse_valid_definition_args _ _ _ Hv).
  destruct language; reflexivity.
Qed.

Lemma getWordDefinition_throws args world e world' :
  getWordDefinition args world = (Throw e, world') ->
  exists name message, e = JsError name message.
Proof.
  unfold getWordDefinition, bind, lift.
  destruct (parse GetDefinitionArgsSchema args) as [[w language]|e0] eqn:Hp.
  - unfold try_catch, throw.
    destruct (fetch_definition _ _ world) as [[r|e1] world1];
      intros H; inversion H; subst.
    unfold new_Error; eauto.
  - intros H; inversion H; subst.
    destruct (parse_throws_ZodError _ _ _ Hp) as [issues ->]; eauto.
Qed.

Lemma getRandomWord_throws args world e world' :
  getRandomWord args world = (Throw e, world') ->
  exists name message, e = JsError name message.
Proof.
  unfold getRandomWord, bind, lift, Math_random.
  destruct (parse GetRandomWordArgsSchema args) as [d|e0] eqn:Hp.
  - apply getWordDefinition_throws.
  - intros H; inversion H; subst.
    destruct (parse_throws_ZodError _ _ _ Hp) as [issues ->]; eauto.
Qed.

Lemma call_tool_throws name args world e world' :
  call_tool name args world = (Throw e, world') ->
  exists cls message, e = JsError cls message.
Proof.
  unfold call_tool.
  destruct (String.eqb name "get_word_definition").
  - apply getWordDefinition_throws.
  - destruct (String.eqb name "get_random_word").
    + apply getRandomWord_throws.
    + unfold throw, new_Error. intros H; inversion H; eauto.
Qed.

(** C1. For every tool name and every argument value the dispatch
    handler completes normally with a text result, never with an
    exception.  When the invoked operation completes normally the handler
    passes its result on; when it throws, the thrown value is an [Error]
    and the text of the result is exactly ["Error: "] followed by its
    message. *)
Theorem handle_call_tool_never_throws name args world :
  (exists result world',
      handle_call_tool name args world = (Return result, world')) /\
  (forall result world',
      call_tool name args world = (Return result, world') ->
      handle_call_tool name args world = (Return result, world')) /\
  (forall e world',
      call_tool name args world = (Throw e, world') ->
      exists cls message,
        e = JsError cls message /\
        handle_call_tool name args world =
        (Return (text_result ("Error: " ++ message)), world')).
Proof.
  unfold handle_call_tool, try_catch, ret.
  destruct (call_tool name args world) as [[result|e] world1] eqn:Hc.
  - split; [eauto|]. split; intros ? ? H; inversion H; subst; reflexivity.
  - destruct (call_tool_throws _ _ _ _ _ Hc) as (cls & message & ->).
    split; [eauto|]. split; intros ? ? H; inversion H; subst.
    exists cls, message. split; reflexivity.
Qed.

(** *** Running the [try] block against a given reply *)

Lemma handle_get_word_definition args world :
  handle_call_tool "get_word_definition" args world =
  match getWordDefinition args world with
  | (Return result, world') => (Return result, world')
  | (Throw e, world') =>
      (Return (text_result ("Error: " ++ message_or "Unknown error occurred" e)), world')
  end.
Proof. reflexivity. Qed.

Lemma fetch_definition_not_ok w language world r :
  network world (api_url language w) = FetchResolved r ->
  ok r = false ->
  fetch_definition w language world =
  (if (status r =? 404)%N then Return (text_result (not_found_404 w))
   else Throw (new_Error (api_error_message r)),
   log (EvFetch (api_url language w)) world).
Proof.
  intros Hnet Hok. unfold fetch_definition, bind, fetch.
  rewrite Hnet, Hok. cbn [negb].
  destruct (status r =? 404)%N; reflexivity.
Qed.

Lemma fetch_definition_ok w language world r data :
  network world (api_url language w) = FetchResolved r ->
  ok r = true ->
  json_body r = JsonResolved data ->
  fetch_definition w language world =
  (match data with
   | None | Some [] => Return (text_result (not_found_empty w))
   | Some (entry :: _) =>
       match format_entry entry with
       | Return t => Return (text_result t)
       | Throw e => Throw e
       end
   end,
   log EvJson (log (EvFetch (api_url language w)) world)).
Proof.
  intros Hnet Hok Hbody. unfold fetch_definition, bind, fetch, json.
  rewrite Hnet, Hok. cbn [negb]. rewrite Hbody.
  destruct data as [[|entry others]|]; try reflexivity.
  unfold lift, ret. destruct (format_entry entry); reflexivity.
Qed.

Lemma status_404_not_ok r : status r = 404%N -> ok r = false.
Proof. unfold ok. now intros ->. Qed.

(** The body is decoded only after a reply whose status is 2xx. *)
Lemma decode_only_when_ok args world :
  decodes (snd (getWordDefinition args world)) <> decodes world ->
  exists url r, network world url = FetchResolved r /\ ok r = true.
Proof.
  unfold getWordDefinition, bind, lift.
  destruct (parse GetDefinitionArgsSchema args) as [[w language]|e];
    [|intros H; now elim H].
  set (lang := match language with Some l => l | None => "en" end).
  unfold try_catch, throw, fetch_definition, bind, fetch.
  destruct (network world (api_url lang w)) as [r|e] eqn:Hnet.
  - destruct (ok r) eqn:Hok; [eauto|].
    cbn [negb].
    destruct (status r =? 404)%N; cbn [ret throw snd];
      rewrite decodes_log; intros H; now elim H.
  - cbn [snd]. rewrite decodes_log. intros H; now elim H.
Qed.

Section ValidRequest.

Variables (fields : list (string * jsval)) (w : string) (language : option string).
Variable world : World.
Hypothesis Hvalid : valid_definition_args fields w language.

Variable r : Response.
Hypothesis Hnet : network world (request_url language w) = FetchResolved r.

Let sent : World := log (EvFetch (request_url language w)) world.
Let decoded : World := log EvJson sent.

Lemma getWordDefinition_not_ok :
  ok r = false ->
  getWordDefinition (JObject fields) world =
  (if (status r =? 404)%N then Return (text_result (not_found_404 w))
   else Throw (fetch_failure w (new_Error (api_error_message r))),
   sent).
Proof.
  intros Hok.
  rewrite (getWordDefinition_valid _ _ _ _ Hvalid).
  unfold try_catch.
  rewrite (fetch_definition_not_ok _ _ _ _ Hnet Hok).
  destruct (status r =? 404)%N; reflexivity.
Qed.

Lemma getWordDefinition_ok data :
  ok r = true ->
  json_body r = JsonResolved data ->
  getWordDefinition (JObject fields) world =
  (match data with
   | None | Some [] => Return (text_result (not_found_empty w))
   | Some (entry :: _) =>
       match format_entry entry with
       | Return t => Return (text_result t)
       | Throw e => Throw (fetch_failure w e)
       end
   end,
   decoded).
Proof.
  intros Hok Hbody.
  rewrite (getWordDefinition_valid _ _ _ _ Hvalid).
  unfold try_catch.
  rewrite (fetch_definition_ok _ _ _ _ _ Hnet Hok Hbody).
  destruct data as [[|entry others]|]; try reflexivity.
  destruct (format_entry entry); reflexivity.
Qed.

(** C3, as amended. When the GET completes with a status that is
    neither 2xx nor 404, [getWordDefinition] throws an [Error] whose
    message carries the status code and the status text behind the
    ["Failed to fetch definition for"] prefix of its [catch] clause, and
    the caller receives that message behind ["Error: "]. *)
Theorem api_error_is_wrapped :
  ok r = false ->
  status r <> 404%N ->
  getWordDefinition (JObject fields) world =
  (Throw (new_Error
            ("Failed to fetch definition for " ++ dq ++ w ++ dq
             ++ ": Dictionary API error: " ++ string_of_N (status r)
             ++ " " ++ statusText r)), sent) /\
  handle_call_tool "get_word_definition" (JObject fields) world =
  (Return (text_result
             ("Error: Failed to fetch definition for " ++ dq ++ w ++ dq
              ++ ": Dictionary API error: " ++ string_of_N (status r)
              ++ " " ++ statusText r)), sent).
Proof.
  intros Hok Hst.
  rewrite handle_get_word_definition, (getWordDefinition_not_ok Hok).
  apply N.eqb_neq in Hst. rewrite Hst.
  split; reflexivity.
Qed.

(** C6, as amended. For a valid request answered with a 2xx reply whose
    array starts with a complete entry, the text returned begins with the line
    ["**{word}**"], where [word] is the [word] field of that entry, and
    that line is the first line of the text whenever the returned word
    has no line break. *)
Theorem first_line_echoes_returned_word entry others returned :
  ok r = true ->
  json_body r = JsonResolved (Some (entry :: others)) ->
  complete entry = true ->
  word entry = Some returned ->
  exists rest,
    getWordDefinition (JObject fields) world =
    (Return (text_result ("**" ++ returned ++ "**" ++ nl ++ rest)), decoded) /\
    (first_line returned = returned ->
     first_line ("**" ++ returned ++ "**" ++ nl ++ rest) = "**" ++ returned ++ "**").
Proof.
  intros Hok Hbody Hc Hword.
  rewrite (getWordDefinition_ok _ Hok Hbody).
  destruct (format_entry_returns _ Hc) as [t Ht]. rewrite Ht.
  destruct (format_entry_blocks _ _ Ht) as [rest ->].
  unfold header. rewrite Hword. cbn [template].
  match goal with
  | |- context [("**" ++ returned ++ "**") ++ nl ++ ?tail] => exists tail
  end.
  split.
  - str_norm.
  - intros Hline.
    match goal with
    | |- first_line (_ ++ _ ++ _ ++ nl ++ ?tail) = _ =>
        replace ("**" ++ returned ++ "**" ++ nl ++ tail)
          with (("**" ++ returned ++ "**") ++ nl ++ tail) by str_norm
    end.
    apply first_line_append.
    apply (first_line_concat "**"); [reflexivity|].
    apply first_line_concat; [assumption | reflexivity].
Qed.

(** C9. For a valid request answered with a 2xx reply that decodes to an
    array whose first entry has no [phonetics], no formatted text is
    returned: the fetch and the decode both happen, a property of
    [undefined] is read (by the audio step, [filter], when the meanings
    are complete), and the caller receives
    ["Error: Failed to fetch definition for ..."] with the message of
    that [TypeError]; the pronunciation step on the same entry does not
    throw and leaves [result] alone unless [phonetic] is truthy. *)
Theorem missing_phonetics_is_reported_as_fetch_failure entry others :
  ok r = true ->
  json_body r = JsonResolved (Some (entry :: others)) ->
  phonetics entry = None ->
  exists prop,
    (meanings_complete entry = true -> prop = "filter") /\
    getWordDefinition (JObject fields) world =
    (Throw (fetch_failure w (undefined_read prop)), decoded) /\
    handle_call_tool "get_word_definition" (JObject fields) world =
    (Return (text_result
               ("Error: Failed to fetch definition for " ++ dq ++ w ++ dq ++ ": "
                ++ "Cannot read properties of undefined (reading '" ++ prop ++ "')")),
     decoded) /\
    requests decoded = S (requests world) /\
    decodes decoded = S (decodes world) /\
    (forall result,
        add_phonetic entry result =
        if truthy (phonetic entry)
        then result ++ pronunciation_line (template (phonetic entry))
        else result).
Proof.
  intros Hok Hbody Hp.
  destruct (format_entry_without_phonetics _ Hp) as (prop & Hf & Haudio).
  exists prop.
  rewrite handle_get_word_definition, (getWordDefinition_ok _ Hok Hbody), Hf.
  split; [exact Haudio|].
  repeat split.
  - unfold decoded, sent. now rewrite !requests_log.
  - unfold decoded, sent. now rewrite !decodes_log.
  - intros result. unfold add_phonetic. now rewrite Hp.
Qed.

(** C10. For a valid request answered with status 404, whatever the
    body is, [getWordDefinition] returns the "No definition found"
    text having recorded the fetch and nothing else, so the body is
    never decoded and no failure can come from it; in any call at all,
    a decode is recorded only after a reply whose status is 2xx. *)
Theorem not_found_never_decodes_body :
  status r = 404%N ->
  getWordDefinition (JObject fields) world =
  (Return (text_result (not_found_404 w)), sent) /\
  trace sent = (trace world ++ [EvFetch (request_url language w)])%list /\
  decodes sent = decodes world /\
  (forall args0 world0,
      decodes (snd (getWordDefinition args0 world0)) <> decodes world0 ->
      exists url r0, network world0 url = FetchResolved r0 /\ ok r0 = true).
Proof.
  intros Hst.
  rewrite (getWordDefinition_not_ok (status_404_not_ok _ Hst)), Hst.
  repeat split.
  - unfold sent. now rewrite decodes_log.
  - apply decode_only_when_ok.
Qed.

End ValidRequest.

(** C2, as amended. For a valid request for the word [w], a 404 reply
    and a 2xx reply whose body is the empty array both complete normally
    with a text that starts with ["No definition found for "w"."] and
    does not start with ["Error:"]; the text for 404 goes on with
    [" Please check the spelling or try a different word."], which the
    text for the empty array does not have. *)
Theorem not_found_texts fields w language world404 r404 world200 r200 :
  valid_definition_args fields w language ->
  network world404 (request_url language w) = FetchResolved r404 ->
  status r404 = 404%N ->
  network world200 (request_url language w) = FetchResolved r200 ->
  ok r200 = true ->
  json_body r200 = JsonResolved (Some []) ->
  fst (getWordDefinition (JObject fields) world404) =
    Return (text_result (not_found_404 w)) /\
  fst (getWordDefinition (JObject fields) world200) =
    Return (text_result (not_found_empty w)) /\
  not_found_empty w = "No definition found for " ++ dq ++ w ++ dq ++ "." /\
  not_found_404 w =
    not_found_empty w ++ " Please check the spelling or try a different word." /\
  String.prefix "Error:" (not_found_404 w) = false /\
  String.prefix "Error:" (not_found_empty w) = false.
Proof.
  intros Hv Hn404 Hst Hn200 Hok Hbody.
  rewrite (getWordDefinition_not_ok _ _ _ _ Hv _ Hn404 (status_404_not_ok _ Hst)), Hst.
  rewrite (getWordDefinition_ok _ _ _ _ Hv _ Hn200 _ Hok Hbody).
  repeat split.
  unfold not_found_404, not_found_empty. str_norm.
Qed.

(** C7. For one valid request and two 2xx replies whose arrays start
    with the same entry, [getWordDefinition] completes the same way; a
    returned text is the formatting of that first entry, whatever
    follows it in either array, and a complete first entry always gives
    such a text. *)
Theorem only_first_entry_is_used fields w language entry
    world1 r1 others1 world2 r2 others2 :
  valid_definition_args fields w language ->
  network world1 (request_url language w) = FetchResolved r1 ->
  ok r1 = true ->
  json_body r1 = JsonResolved (Some (entry :: others1)) ->
  network world2 (request_url language w) = FetchResolved r2 ->
  ok r2 = true ->
  json_body r2 = JsonResolved (Some (entry :: others2)) ->
  fst (getWordDefinition (JObject fields) world1) =
  fst (getWordDefinition (JObject fields) world2) /\
  (forall t,
      fst (getWordDefinition (JObject fields) world1) = Return (text_result t) ->
      format_entry entry = Return t) /\
  (complete entry = true ->
   exists t,
     format_entry entry = Return t /\
     fst (getWordDefinition (JObject fields) world1) = Return (text_result t)).
Proof.
  intros Hv Hn1 Hok1 Hb1 Hn2 Hok2 Hb2.
  rewrite (getWordDefinition_ok _ _ _ _ Hv _ Hn1 _ Hok1 Hb1).
  rewrite (getWordDefinition_ok _ _ _ _ Hv _ Hn2 _ Hok2 Hb2).
  cbn [fst]. split; [reflexivity|]. split.
  - intros t. destruct (format_entry entry) as [t'|e]; [|discriminate].
    intros H. apply Return_inj in H. now injection H as ->.
  - intros Hc. destruct (format_entry_returns _ Hc) as [t Ht].
    exists t. now rewrite Ht.
Qed.

(** C8. A call of [getWordDefinition] whose [word] is the empty string
    throws the [ZodError] of the validator, whose first issue is the
    custom ["Word cannot be empty"] one, and leaves the world as it
    was: no request is sent, and the caller receives the validator's
    message behind ["Error: "]. *)
Theorem empty_word_fails_before_fetch fields world :
  get_property "word" fields = JString EmptyString ->
  exists issues,
    getWordDefinition (JObject fields) world =
    (Throw (JsError "ZodError" (zod_message (empty_word_issue :: issues))), world) /\
    requests (snd (getWordDefinition (JObject fields) world)) = requests world /\
    trace (snd (getWordDefinition (JObject fields) world)) = trace world /\
    handle_call_tool "get_word_definition" (JObject fields) world =
    (Return (text_result ("Error: " ++ zod_message (empty_word_issue :: issues))),
     world).
Proof.
  intros Hw.
  rewrite handle_get_word_definition.
  unfold getWordDefinition, bind, lift, parse, GetDefinitionArgsSchema.
  rewrite Hw. cbn [z_min z_string String.length Nat.ltb Nat.leb issues_of issue app].
  eexists. repeat split.
Qed.

(** C4. For an argument object whose [difficulty] is one of the three
    levels, or absent (then medium), and every double [r] of [[0, 1)]
    that [Math.random()] may return, [getRandomWord] picks the word at
    index [floor(r * n)], the product being the double nearest to the
    exact one, of the list of [n] words of that level, a member of the
    list, and is then exactly [getWordDefinition] on that word with
    language ["en"].  The index is uniform over the list up to the
    rounding of that one product: it is [j] for every draw of the slot
    [[j/n, (j+1)/n)] that stays a relative [2 ^ -53] below the upper end,
    it is [j] only for draws of that slot or a relative [2 ^ -53] below
    it, and for a list of 16 words it is [j] exactly for the draws of
    the slot; the lists have 16, 16 and 15 words. *)
Theorem random_word_comes_from_tier fields d world :
  get_property "difficulty" fields = difficulty_value d ->
  let words := wordLists (difficulty_or_medium d) in
  let r := random_source world (draws world) in
  (exists i chosen,
      random_index r (List.length words) = Z.of_nat i /\
      nth_error words i = Some chosen /\
      In chosen words /\
      getRandomWord (JObject fields) world =
      getWordDefinition
        (JObject [("word", JString chosen); ("language", JString "en")])
        (log EvRandom world)) /\
  (forall j, inner_slot (double_value r) j (List.length words) ->
             random_index r (List.length words) = j) /\
  (forall j, random_index r (List.length words) = j ->
             outer_slot (double_value r) j (List.length words)) /\
  (List.length words = 16 ->
   forall j, random_index r (List.length words) = j <->
             in_slot (double_value r) j (List.length words)) /\
  List.length (wordLists easy) = 16 /\
  List.length (wordLists medium) = 16 /\
  List.length (wordLists hard) = 15.
Proof.
  intros Hd words r.
  assert (Hlen : 0 < List.length words)
    by (unfold words; destruct d as [[| |]|]; cbn; lia).
  assert (Hbound : (Z.of_nat (List.length words) < 2 ^ 53)%Z)
    by (unfold words; destruct d as [[| |]|]; cbn; lia).
  split; [|split; [|split; [|split; [|repeat split]]]].
  - destruct (index_word_in words _ (random_index_range r _ Hlen))
      as (chosen & Hnth & Hin & Hword).
    exists (Z.to_nat (random_index r (List.length words))), chosen.
    repeat split; try assumption.
    + pose proof (random_index_range r _ Hlen). lia.
    + unfold getRandomWord, bind, lift, Math_random.
      rewrite (parse_difficulty _ _ Hd).
      fold r. fold (difficulty_or_medium d). fold words.
      now rewrite Hword.
  - intros j Hin. apply (value_in_inner_slot r j _ Hlen) in Hin as [Hlo Hhi].
    apply Z.le_antisymm;
      [now apply random_index_at_most | now apply random_index_at_least].
  - intros j Hj. apply (value_in_outer_slot r j _ Hlen).
    destruct (random_index_inv r _ j Hbound Hj) as [Hhi Hlo]. now split.
  - intros H16 j. rewrite H16.
    split; intros H.
    + apply (value_in_slot r j 16); [lia|]. now apply random_index_sixteen.
    + apply random_index_sixteen. apply (value_in_slot r j 16); [lia | exact H].
Qed.

(** C5, as amended. The pronunciation step appends one line or nothing:
    the top-level [phonetic] when it is there and not empty; otherwise
    the non-empty [phonetics[].text] values joined with [", "] when that
    joined text is not empty; otherwise nothing.  In the text of a
    complete entry that line, or nothing, stands between the header and
    the origin and meanings blocks. *)
Theorem pronunciation_line_needs_nonempty_phonetic entry :
  (forall result,
      add_phonetic entry result =
      result ++ optional_line (pronunciation_shown entry)) /\
  (forall s, phonetic entry = Some s -> nonempty s = true ->
             pronunciation_shown entry = Some s) /\
  (truthy (phonetic entry) = false -> nonempty (joined_texts entry) = true ->
   pronunciation_shown entry = Some (joined_texts entry)) /\
  (truthy (phonetic entry) = false -> nonempty (joined_texts entry) = false ->
   pronunciation_shown entry = None) /\
  (complete entry = true ->
   exists t rest,
     format_entry entry = Return t /\
     t = header entry ++ nl ++ nl ++ optional_line (pronunciation_shown entry)
         ++ add_origin entry EmptyString ++ "**Meanings:**" ++ nl ++ nl ++ rest).
Proof.
  split; [apply add_phonetic_shown|].
  unfold pronunciation_shown, truthy.
  repeat split.
  - intros s -> Hs. now destruct s.
  - intros Hp ->. now destruct (phonetic entry) as [[|c s]|].
  - intros Hp ->. now destruct (phonetic entry) as [[|c s]|].
  - intros Hc. destruct (format_entry_returns _ Hc) as [t Ht].
    destruct (format_entry_blocks _ _ Ht) as [rest Hrest]. eauto.
Qed.

End Properties.

(** * Concrete runs *)

Lemma hello_request_valid : valid_definition_args hello_fields "hello" None.
Proof. repeat split. Qed.

(** An unknown tool name gives the error text, not an exception. *)
Lemma handle_call_tool_never_throws_witness :
  call_tool (printer := sample_printer) "nope" JNull world_hello =
    (Throw (new_Error "Unknown tool: nope"), world_hello) /\
  handle_call_tool (printer := sample_printer) "nope" JNull world_hello =
    (Return (text_result "Error: Unknown tool: nope"), world_hello).
Proof.
  split; [reflexivity|].
  destruct (handle_call_tool_never_throws (printer := sample_printer)
              "nope" JNull world_hello) as (_ & _ & H).
  destruct (H _ _ eq_refl) as (cls & message & Heq & Hrun).
  injection Heq as <- <-. exact Hrun.
Defined.

(** The text for a 404 reply and the text for an empty array differ. *)
Lemma not_found_texts_differ :
  fst (getWordDefinition (printer := sample_printer) (JObject hello_fields) world_404)
  <> fst (getWordDefinition (printer := sample_printer) (JObject hello_fields) world_empty).
Proof. vm_compute. discriminate. Qed.

Lemma not_found_texts_witness :
  fst (getWordDefinition (printer := sample_printer) (JObject hello_fields) world_404) =
    Return (text_result (not_found_404 "hello")) /\
  fst (getWordDefinition (printer := sample_printer) (JObject hello_fields) world_empty) =
    Return (text_result (not_found_empty "hello")).
Proof.
  destruct (not_found_texts (printer := sample_printer)
              hello_fields "hello" None world_404
              {| status := 404; statusText := "Not Found";
                 json_body := JsonRejected syntax_error |}
              world_empty
              {| status := 200; statusText := "OK";
                 json_body := JsonResolved (Some []) |})
    as (H404 & H200 & _); try reflexivity.
  - exact hello_request_valid.
  - split; assumption.
Defined.

(** A status 500 is not surfaced as the bare API error text. *)
Lemma api_error_text_has_fetch_prefix :
  fst (handle_call_tool (printer := sample_printer)
         "get_word_definition" (JObject hello_fields) world_500)
  <> Return (text_result "Error: Dictionary API error: 500 Internal Server Error").
Proof. vm_compute. discriminate. Qed.

Lemma api_error_is_wrapped_witness :
  fst (handle_call_tool (printer := sample_printer)
         "get_word_definition" (JObject hello_fields) world_500) =
  Return (text_result
            ("Error: Failed to fetch definition for " ++ dq ++ "hello" ++ dq
             ++ ": Dictionary API error: 500 Internal Server Error")).
Proof.
  destruct (api_error_is_wrapped (printer := sample_printer)
              hello_fields "hello" None world_500 hello_request_valid
              {| status := 500; statusText := "Internal Server Error";
                 json_body := JsonResolved None |}) as (_ & H);
    [reflexivity | reflexivity | discriminate |].
  rewrite H. reflexivity.
Defined.

Lemma random_word_comes_from_tier_witness :
  in_slot (double_value draw_six_tenths) 8 15 /\
  random_index draw_six_tenths 15 = 9%Z /\
  getRandomWord (printer := sample_printer)
    (JObject [("difficulty", JString "hard")]) world_six_tenths =
  getWordDefinition (printer := sample_printer)
    (JObject [("word", JString "perspicuity"); ("language", JString "en")])
    (log EvRandom world_six_tenths).
Proof.
  destruct (random_word_comes_from_tier (printer := sample_printer)
              [("difficulty", JString "hard")] (Some hard) world_six_tenths eq_refl)
    as ((i & chosen & Hi & Hnth & _ & Hrun) & _ & Houter & _).
  assert (Hnine : random_index draw_six_tenths 15 = 9%Z) by (vm_compute; reflexivity).
  split; [|split; [exact Hnine|]].
  - apply (value_in_slot draw_six_tenths 8 15); [lia|]. vm_compute.
    split; [discriminate | reflexivity].
  - change (random_index draw_six_tenths 15 = Z.of_nat i) in Hi.
    rewrite Hnine in Hi.
    assert (Hi9 : i = 9) by lia. subst i.
    vm_compute in Hnth. injection Hnth as <-.
    exact Hrun.
Defined.

(** An empty [phonetic] is there, yet the line shows the joined texts. *)
Lemma empty_phonetic_is_skipped :
  phonetic silent_entry = Some EmptyString /\
  pronunciation_as_claimed silent_entry = Some EmptyString /\
  add_phonetic silent_entry EmptyString = pronunciation_line "hE'lqU" /\
  add_phonetic silent_entry EmptyString
  <> optional_line (pronunciation_as_claimed silent_entry).
Proof. repeat split. vm_compute. discriminate. Qed.

Lemma pronunciation_line_needs_nonempty_phonetic_witness :
  pronunciation_shown silent_entry = Some "hE'lqU" /\
  pronunciation_shown hello_entry = Some "hq'lqU, hE'lqU" /\
  pronunciation_shown bare_entry = Some "hq'lqU" /\
  exists t, format_entry hello_entry = Return t.
Proof.
  destruct (pronunciation_line_needs_nonempty_phonetic silent_entry)
    as (_ & _ & Hjoined & _).
  destruct (pronunciation_line_needs_nonempty_phonetic hello_entry)
    as (_ & _ & _ & _ & Hformat).
  destruct (pronunciation_line_needs_nonempty_phonetic bare_entry)
    as (_ & Hown & _).
  split; [|split; [|split]].
  - now rewrite Hjoined.
  - reflexivity.
  - now rewrite (Hown "hq'lqU").
  - destruct (Hformat eq_refl) as (t & rest & Ht & _). now exists t.
Defined.

(** An entry without [phonetics] gives no formatted text at all, and a
    returned word with a line break is cut at it. *)
Lemma first_line_can_differ_from_returned_word :
  valid_definition_args hello_fields "hello" None /\
  ok {| status := 200; statusText := "OK";
        json_body := JsonResolved (Some [bare_entry]) |} = true /\
  fst (getWordDefinition (printer := sample_printer) (JObject hello_fields) world_bare) =
    Throw (fetch_failure "hello" (undefined_read "filter")) /\
  word multiline_entry = Some ("a" ++ nl ++ "b") /\
  (exists t,
      fst (getWordDefinition (printer := sample_printer)
             (JObject hello_fields) world_multiline) = Return (text_result t) /\
      first_line t = "**a" /\
      first_line t <> "**" ++ ("a" ++ nl ++ "b") ++ "**").
Proof.
  split; [exact hello_request_valid|].
  split; [reflexivity|]. split; [reflexivity|]. split; [reflexivity|].
  eexists. split; [reflexivity|]. split; [reflexivity|].
  vm_compute. discriminate.
Qed.

Lemma first_line_echoes_returned_word_witness :
  exists rest,
    getWordDefinition (printer := sample_printer) (JObject hello_fields) world_hello =
    (Return (text_result ("**hello**" ++ nl ++ rest)),
     log EvJson (log (EvFetch (request_url None "hello")) world_hello)) /\
    first_line ("**hello**" ++ nl ++ rest) = "**hello**".
Proof.
  destruct (first_line_echoes_returned_word (printer := sample_printer)
              hello_fields "hello" None world_hello hello_request_valid
              {| status := 200; statusText := "OK";
                 json_body := JsonResolved (Some [hello_entry]) |}
              eq_refl hello_entry [] "hello")
    as (rest & Hrun & Hline); try reflexivity.
  exists rest. split; [exact Hrun | exact (Hline eq_refl)].
Defined.

Lemma only_first_entry_is_used_witness :
  fst (getWordDefinition (printer := sample_printer) (JObject hello_fields) world_hello) =
  fst (getWordDefinition (printer := sample_printer) (JObject hello_fields)
         world_hello_and_more).
Proof.
  destruct (only_first_entry_is_used (printer := sample_printer)
              hello_fields "hello" None hello_entry
              world_hello
              {| status := 200; statusText := "OK";
                 json_body := JsonResolved (Some [hello_entry]) |} []
              world_hello_and_more
              {| status := 200; statusText := "OK";
                 json_body := JsonResolved (Some [hello_entry; hello_entry]) |}
              [hello_entry]
              hello_request_valid eq_refl eq_refl eq_refl eq_refl eq_refl eq_refl)
    as (Hsame & _).
  exact Hsame.
Defined.

Lemma empty_word_fails_before_fetch_witness :
  exists issues,
    getWordDefinition (printer := sample_printer) (word_args EmptyString) world_hello =
    (Throw (JsError "ZodError" (sample_printer (empty_word_issue :: issues))),
     world_hello) /\
    requests world_hello = 0.
Proof.
  destruct (empty_word_fails_before_fetch (printer := sample_printer)
              [("word", JString EmptyString)] world_hello eq_refl)
    as (issues & Hrun & _).
  exists issues. split; [exact Hrun | reflexivity].
Defined.

Lemma missing_phonetics_is_reported_as_fetch_failure_witness :
  handle_call_tool (printer := sample_printer)
    "get_word_definition" (JObject hello_fields) world_bare =
  (Return (text_result
             ("Error: Failed to fetch definition for " ++ dq ++ "hello" ++ dq ++ ": "
              ++ "Cannot read properties of undefined (reading 'filter')")),
   log EvJson (log (EvFetch (request_url None "hello")) world_bare)).
Proof.
  destruct (missing_phonetics_is_reported_as_fetch_failure (printer := sample_printer)
              hello_fields "hello" None world_bare hello_request_valid
              {| status := 200; statusText := "OK";
                 json_body := JsonResolved (Some [bare_entry]) |}
              eq_refl bare_entry [] eq_refl eq_refl eq_refl)
    as (prop & Hprop & _ & Hrun & _).
  rewrite (Hprop eq_refl) in Hrun. exact Hrun.
Defined.

Lemma not_found_never_decodes_body_witness :
  getWordDefinition (printer := sample_printer) (JObject hello_fields) world_404 =
  (Return (text_result (not_found_404 "hello")),
   log (EvFetch (request_url None "hello")) world_404) /\
  decodes (log (EvFetch (request_url None "hello")) world_404) = 0.
Proof.
  destruct (not_found_never_decodes_body (printer := sample_printer)
              hello_fields "hello" None world_404 hello_request_valid
              {| status := 404; statusText := "Not Found";
                 json_body := JsonRejected syntax_error |}
              eq_refl eq_refl)
    as (Hrun & _ & Hdec & _).
  split; [exact Hrun | exact Hdec].
Defined.

(** * Further properties: the tool list, validation and dispatch *)

Section Dispatch.

Context {printer : ZodPrinter}.

(** What [getWordDefinition] can throw: the validator's error, or the
    error built by its [catch] clause. *)
Lemma getWordDefinition_throw_kinds args world e world' :
  getWordDefinition args world = (Throw e, world') ->
  (exists issues, e = JsError "ZodError" (zod_message issues) /\ world' = world) \/
  (exists w cause, e = fetch_failure w cause).
Proof.
  unfold getWordDefinition, bind, lift.
  destruct (parse GetDefinitionArgsSchema args) as [[w language]|e0] eqn:Hp.
  - unfold try_catch, throw.
    destruct (fetch_definition _ _ world) as [[r|e1] world1];
      intros H; inversion H; subst.
    right. now exists w, e1.
  - intros H; inversion H; subst.
    destruct (parse_throws_ZodError _ _ _ Hp) as [issues ->].
    left. now exists issues.
Qed.

Lemma getRandomWord_throw_kinds args world e world' :
  getRandomWord args world = (Throw e, world') ->
  (exists issues, e = JsError "ZodError" (zod_message issues)) \/
  (exists w cause, e = fetch_failure w cause).
Proof.
  unfold getRandomWord, bind, lift, Math_random.
  destruct (parse GetRandomWordArgsSchema args) as [d|e0] eqn:Hp.
  - intros H. apply getWordDefinition_throw_kinds in H as [(issues & -> & _)|H]; eauto.
  - intros H; inversion H; subst.
    destruct (parse_throws_ZodError _ _ _ Hp) as [issues ->]. eauto.
Qed.

Lemma Throw_inj {A : Type} (e1 e2 : thrown) :
  @Throw A e1 = Throw e2 -> e1 = e2.
Proof. congruence. Qed.

Lemma fetch_failure_is_not_unknown_tool w cause name :
  fetch_failure w cause <> new_Error ("Unknown tool: " ++ name).
Proof. unfold fetch_failure, new_Error. cbn [append]. discriminate. Qed.

(** X1. A tool name other than the two of the switch is answered with
    the text ["Error: Unknown tool: {name}"], whatever the arguments, and
    the world is left as it was: nothing is validated, fetched or
    drawn. *)
Theorem unknown_tool_reports_name name args world :
  name <> "get_word_definition" ->
  name <> "get_random_word" ->
  handle_call_tool name args world =
  (Return (text_result ("Error: Unknown tool: " ++ name)), world).
Proof.
  intros H1 H2. apply String.eqb_neq in H1, H2.
  unfold handle_call_tool, try_catch, call_tool. now rewrite H1, H2.
Qed.

(** X2. The names listed by the tool-list handler are exactly the names
    the call handler dispatches: a name is listed if and only if calling
    it never ends in the unknown-tool error. *)
Theorem listed_tools_are_the_dispatched_ones name :
  In name (map tool_name tools) <->
  (forall args world,
      fst (call_tool name args world) <> Throw (new_Error ("Unknown tool: " ++ name))).
Proof.
  unfold call_tool. split.
  - intros Hin. cbn in Hin.
    destruct Hin as [<- | [<- | []]]; intros args world;
      cbn [String.eqb Ascii.eqb Bool.eqb].
    + destruct (getWordDefinition args world) as [[res|e] world'] eqn:Hrun;
        cbn [fst]; [discriminate|].
      apply getWordDefinition_throw_kinds in Hrun as [(issues & -> & _)|(w & cause & ->)];
        [discriminate
        | intros H; apply Throw_inj in H; revert H;
          apply fetch_failure_is_not_unknown_tool].
    + destruct (getRandomWord args world) as [[res|e] world'] eqn:Hrun;
        cbn [fst]; [discriminate|].
      apply getRandomWord_throw_kinds in Hrun as [(issues & ->)|(w & cause & ->)];
        [discriminate
        | intros H; apply Throw_inj in H; revert H;
          apply fetch_failure_is_not_unknown_tool].
  - intros H. specialize (H JNull world_hello). cbn.
    destruct (String.eqb name "get_word_definition") eqn:E1;
      [apply String.eqb_eq in E1; now left|].
    destruct (String.eqb name "get_random_word") eqn:E2;
      [apply String.eqb_eq in E2; right; now left|].
    now elim H.
Qed.

(** X3. Every key that a listed tool declares as required is enforced by
    the call handler: an argument object without that key makes the tool
    throw the validator's error with the world left as it was. *)
Theorem required_keys_are_enforced t key fields world :
  In t tools ->
  In key (required (inputSchema t)) ->
  get_property key fields = JUndefined ->
  exists issues,
    call_tool (tool_name t) (JObject fields) world =
    (Throw (JsError "ZodError" (zod_message issues)), world).
Proof.
  intros [<- | [<- | []]];
    cbn [required inputSchema get_word_definition_tool get_random_word_tool];
    [|intros []].
  intros [<- | []] Hmissing.
  cbn [tool_name get_word_definition_tool].
  change (call_tool "get_word_definition" (JObject fields) world)
    with (getWordDefinition (JObject fields) world).
  unfold getWordDefinition, bind, lift, parse, GetDefinitionArgsSchema.
  rewrite Hmissing. cbn [z_min z_string]. eexists. reflexivity.
Qed.

(** X4. Every default that a listed tool declares for a key is the
    default the tool applies: a call whose argument object lacks the key
    runs exactly as the call that passes the declared default, the other
    keys being equal. *)
Theorem declared_defaults_are_applied t key p d fields fields' world :
  In t tools ->
  In (key, p) (properties (inputSchema t)) ->
  prop_default p = Some d ->
  get_property key fields = JUndefined ->
  get_property key fields' = JString d ->
  (forall k, k <> key -> get_property k fields' = get_property k fields) ->
  call_tool (tool_name t) (JObject fields') world =
  call_tool (tool_name t) (JObject fields) world.
Proof.
  intros [<- | [<- | []]];
    cbn [properties inputSchema get_word_definition_tool get_random_word_tool].
  - intros [H | [H | []]]; injection H as <- <-; cbn [prop_default];
      [discriminate|].
    intros H; injection H as <-. intros Hlang Hlang' Hother.
    change (getWordDefinition (JObject fields') world =
            getWordDefinition (JObject fields) world).
    unfold getWordDefinition, bind, lift, parse, GetDefinitionArgsSchema.
    rewrite Hlang, Hlang', (Hother "word") by discriminate.
    cbn [z_optional z_default z_string].
    destruct (z_min 1 "Word cannot be empty" z_string _ _); reflexivity.
  - intros [H | []]; injection H as <- <-; cbn [prop_default].
    intros H; injection H as <-. intros Hdiff Hdiff' _.
    change (getRandomWord (JObject fields') world =
            getRandomWord (JObject fields) world).
    unfold getRandomWord, bind, lift, parse, GetRandomWordArgsSchema.
    now rewrite Hdiff, Hdiff'.
Qed.

(** X5. The values a listed tool declares in the [enum] of a key are
    exactly the strings the validator accepts for that key. *)
Theorem declared_enum_is_the_accepted_one t key p values s fields :
  In t tools ->
  In (key, p) (properties (inputSchema t)) ->
  prop_enum p = Some values ->
  get_property key fields = JString s ->
  (In s values <->
   exists d, parse GetRandomWordArgsSchema (JObject fields) = Return (Some d)).
Proof.
  intros [<- | [<- | []]];
    cbn [properties inputSchema get_word_definition_tool get_random_word_tool].
  - intros [H | [H | []]]; injection H as <- <-; discriminate.
  - intros [H | []]; injection H as <- <-; cbn [prop_enum].
    intros H; injection H as <-. intros Hs.
    unfold parse, GetRandomWordArgsSchema. rewrite Hs.
    cbn [z_optional z_default z_enum_difficulty].
    unfold difficulty_of_string. split.
    + intros [<- | [<- | [<- | []]]]; cbn; eauto.
    + destruct (String.eqb_spec s "easy") as [->|]; [intros; now left|].
      destruct (String.eqb_spec s "medium") as [->|]; [intros; right; now left|].
      destruct (String.eqb_spec s "hard") as [->|];
        [intros; right; right; now left|].
      intros [d H]. discriminate.
Qed.

Lemma parse_definition_args_object args w language :
  parse GetDefinitionArgsSchema args = Return (w, language) ->
  exists fields, args = JObject fields /\ valid_definition_args fields w language.
Proof.
  unfold parse, GetDefinitionArgsSchema, valid_definition_args.
  destruct args as [| | | | |items|fields]; try discriminate.
  intros H. exists fields. split; [reflexivity|].
  destruct (get_property "word" fields) as [| | | |s0| |];
    cbn [z_min z_string] in H; try discriminate.
  destruct s0 as [|c s0]; cbn [String.length Nat.ltb Nat.leb] in H;
    [discriminate|].
  destruct (get_property "language" fields) as [| | | |l| |];
    cbn [z_optional z_default z_string] in H; try discriminate;
    injection H as <- <-; repeat split.
Qed.

(** X6. [GetDefinitionArgsSchema] accepts exactly the objects whose
    [word] is a non-empty string and whose [language] is absent or a
    string; no trimming is applied and an empty [language] passes.  When
    it rejects, [getWordDefinition] throws the validator's error and the
    world is left as it was. *)
Theorem definition_args_accepted_iff args w language :
  (parse GetDefinitionArgsSchema args = Return (w, language) <->
   exists fields, args = JObject fields /\ valid_definition_args fields w language) /\
  (forall e world,
      parse GetDefinitionArgsSchema args = Throw e ->
      getWordDefinition args world = (Throw e, world)).
Proof.
  split; [split|].
  - apply parse_definition_args_object.
  - intros (fields & -> & Hv). now apply parse_valid_definition_args.
  - intros e world Hp. unfold getWordDefinition, bind, lift. now rewrite Hp.
Qed.

(** X7. [GetRandomWordArgsSchema] accepts exactly the objects whose
    [difficulty] is absent or one of the three level names.  When it
    rejects, [getRandomWord] throws the validator's error and the world
    is left as it was: no number is drawn and nothing is fetched. *)
Theorem random_args_accepted_iff args d :
  (parse GetRandomWordArgsSchema args = Return d <->
   exists fields,
     args = JObject fields /\ get_property "difficulty" fields = difficulty_value d) /\
  (forall e world,
      parse GetRandomWordArgsSchema args = Throw e ->
      getRandomWord args world = (Throw e, world)).
Proof.
  split; [split|].
  - unfold parse, GetRandomWordArgsSchema.
    destruct args as [| | | | |items|fields]; try discriminate.
    intros H. exists fields. split; [reflexivity|].
    destruct (get_property "difficulty" fields) as [| | | |s| |];
      cbn [z_optional z_default z_enum_difficulty] in H; try discriminate.
    + now injection H as <-.
    + unfold difficulty_of_string in H.
      destruct (String.eqb s "easy") eqn:E1;
        [apply String.eqb_eq in E1; subst s; now injection H as <-|].
      destruct (String.eqb s "medium") eqn:E2;
        [apply String.eqb_eq in E2; subst s; now injection H as <-|].
      destruct (String.eqb s "hard") eqn:E3;
        [apply String.eqb_eq in E3; subst s; now injection H as <-|].
      discriminate.
  - intros (fields & -> & Hd). now apply parse_difficulty.
  - intros e world Hp. unfold getRandomWord, bind, lift. now rewrite Hp.
Qed.

End Dispatch.

(** * Further properties: the fetch, its failures and the trace *)

Section Fetching.

Context {printer : ZodPrinter}.

Lemma trace_log ev world : trace (log ev world) = (trace world ++ [ev])%list.
Proof. reflexivity. Qed.

(** A validated call records the fetch of its URL and then at most the
    decode. *)
Lemma getWordDefinition_valid_trace fields w language world :
  valid_definition_args fields w language ->
  exists tail,
    trace (snd (getWordDefinition (JObject fields) world)) =
    (trace world ++ EvFetch (request_url language w) :: tail)%list /\
    (tail = [] \/ tail = [EvJson]).
Proof.
  intros Hv. rewrite (getWordDefinition_valid _ _ _ _ Hv).
  unfold try_catch, fetch_definition, bind, fetch, json, lift, ret, throw.
  fold (request_url language w).
  destruct (network world (request_url language w)) as [r|e].
  - destruct (ok r); cbn [negb].
    + exists [EvJson]. split; [|now right].
      destruct (json_body r) as [[[|entry others]|]|e]; cbn [snd];
        try destruct (format_entry entry); cbn [snd];
        rewrite !trace_log, <- app_assoc; reflexivity.
    + exists []. split; [|now left].
      destruct (status r =? 404)%N; reflexivity.
  - exists []. split; [reflexivity | now left].
Qed.

(** A validated call that completes normally gives a text that does not
    start with ["Error: "]. *)
Lemma getWordDefinition_return_text args world result world' :
  getWordDefinition args world = (Return result, world') ->
  exists t, result = text_result t /\ String.prefix "Error: " t = false.
Proof.
  unfold getWordDefinition, bind, lift.
  destruct (parse GetDefinitionArgsSchema args) as [[w language]|e0];
    [|discriminate].
  unfold try_catch, fetch_definition, bind, fetch, json, lift, ret, throw.
  destruct (network world _) as [r|e]; [|discriminate].
  destruct (ok r); cbn [negb].
  - destruct (json_body r) as [[[|entry others]|]|e]; try discriminate;
      try (intros H; injection H as <- _; eexists; split; reflexivity).
    destruct (format_entry entry) as [t|e] eqn:Hf; [|discriminate].
    intros H; injection H as <- _. exists t. split; [reflexivity|].
    destruct (format_entry_blocks _ _ Hf) as [rest ->].
    unfold header. rewrite append_assoc. reflexivity.
  - destruct (status r =? 404)%N; [|discriminate].
    intros H; injection H as <- _. eexists; split; reflexivity.
Qed.

(** X8. When the fetch of a validated call rejects, [getWordDefinition]
    throws ["Failed to fetch definition for "w": {cause}"], where the
    cause is the message of the rejection, or ["Unknown error"] when the
    rejection is not an [Error]; the caller receives it behind
    ["Error: "]; one request was recorded and the body was never
    decoded. *)
Theorem network_failure_is_wrapped fields w language world e :
  valid_definition_args fields w language ->
  network world (request_url language w) = FetchRejected e ->
  let world' := log (EvFetch (request_url language w)) world in
  getWordDefinition (JObject fields) world =
  (Throw (new_Error
            ("Failed to fetch definition for " ++ dq ++ w ++ dq ++ ": "
             ++ match e with
                | JsError _ message => message
                | NotAnError => "Unknown error"
                end)), world') /\
  handle_call_tool "get_word_definition" (JObject fields) world =
  (Return (text_result
             ("Error: Failed to fetch definition for " ++ dq ++ w ++ dq ++ ": "
              ++ match e with
                 | JsError _ message => message
                 | NotAnError => "Unknown error"
                 end)), world') /\
  requests world' = S (requests world) /\
  decodes world' = decodes world.
Proof.
  intros Hv Hnet world'.
  rewrite handle_get_word_definition, (getWordDefinition_valid _ _ _ _ Hv).
  unfold try_catch, fetch_definition, bind, fetch.
  fold (request_url language w). rewrite Hnet.
  repeat split.
  - unfold world'. now rewrite requests_log.
  - unfold world'. now rewrite decodes_log.
Qed.

(** X9. When the reply of a validated call has a 2xx status but its
    body does not decode, [getWordDefinition] throws
    ["Failed to fetch definition for "w": {cause}"] with the message of
    the decode failure, and the caller receives it behind ["Error: "];
    one request and one decode were recorded. *)
Theorem decode_failure_is_wrapped fields w language world r e :
  valid_definition_args fields w language ->
  network world (request_url language w) = FetchResolved r ->
  ok r = true ->
  json_body r = JsonRejected e ->
  let world' := log EvJson (log (EvFetch (request_url language w)) world) in
  getWordDefinition (JObject fields) world =
  (Throw (new_Error
            ("Failed to fetch definition for " ++ dq ++ w ++ dq ++ ": "
             ++ match e with
                | JsError _ message => message
                | NotAnError => "Unknown error"
                end)), world') /\
  handle_call_tool "get_word_definition" (JObject fields) world =
  (Return (text_result
             ("Error: Failed to fetch definition for " ++ dq ++ w ++ dq ++ ": "
              ++ match e with
                 | JsError _ message => message
                 | NotAnError => "Unknown error"
                 end)), world') /\
  requests world' = S (requests world) /\
  decodes world' = S (decodes world).
Proof.
  intros Hv Hnet Hok Hbody world'.
  rewrite handle_get_word_definition, (getWordDefinition_valid _ _ _ _ Hv).
  unfold try_catch, fetch_definition, bind, fetch, json.
  fold (request_url language w). rewrite Hnet, Hok. cbn [negb]. rewrite Hbody.
  repeat split.
  - unfold world'. now rewrite !requests_log.
  - unfold world'. now rewrite !decodes_log.
Qed.

(** X10. A call of [getWordDefinition] makes a single attempt: it adds
    to the trace nothing (as whenever validation fails), or one fetch, or
    one fetch followed by one decode; it never fetches twice and never
    decodes without having fetched. *)
Theorem getWordDefinition_makes_one_attempt args world :
  exists tail,
    trace (snd (getWordDefinition args world)) = (trace world ++ tail)%list /\
    (tail = [] \/ exists url, tail = [EvFetch url] \/ tail = [EvFetch url; EvJson]) /\
    ((exists e, parse GetDefinitionArgsSchema args = Throw e) -> tail = []).
Proof.
  destruct (parse GetDefinitionArgsSchema args) as [[w language]|e] eqn:Hp.
  - apply parse_definition_args_object in Hp as (fields & -> & Hv).
    destruct (getWordDefinition_valid_trace _ _ _ world Hv) as (tail & Ht & Hshape).
    exists (EvFetch (request_url language w) :: tail).
    split; [exact Ht|]. split.
    + right. exists (request_url language w).
      destruct Hshape as [-> | ->]; [now left | now right].
    + intros [e He]. discriminate.
  - exists []. rewrite app_nil_r. split; [|split; [now left|]].
    + unfold getWordDefinition, bind, lift. now rewrite Hp.
    + reflexivity.
Qed.

Lemma getRandomWord_return_text args world result world' :
  getRandomWord args world = (Return result, world') ->
  exists t, result = text_result t /\ String.prefix "Error: " t = false.
Proof.
  unfold getRandomWord, bind, lift, Math_random.
  destruct (parse GetRandomWordArgsSchema args) as [d|e0]; [|discriminate].
  apply getWordDefinition_return_text.
Qed.

(** X11. The caller can tell failures from results by the text alone:
    for every tool name and argument the handler answers with one text
    item, and that text starts with ["Error: "] if and only if the
    invoked operation threw. *)
Theorem error_prefix_iff_thrown name args world :
  exists t world',
    handle_call_tool name args world = (Return (text_result t), world') /\
    (String.prefix "Error: " t = true <->
     exists e, fst (call_tool name args world) = Throw e).
Proof.
  unfold handle_call_tool, try_catch, ret.
  destruct (call_tool name args world) as [[result|e] world'] eqn:Hrun.
  - assert (Ht : exists t, result = text_result t /\ String.prefix "Error: " t = false).
    { unfold call_tool in Hrun.
      destruct (String.eqb name "get_word_definition");
        [eapply getWordDefinition_return_text; eassumption|].
      destruct (String.eqb name "get_random_word");
        [eapply getRandomWord_return_text; eassumption|].
      discriminate. }
    destruct Ht as (t & -> & Hprefix).
    exists t, world'. split; [reflexivity|].
    cbn [fst]. rewrite Hprefix. split; [discriminate | intros [e He]; discriminate].
  - eexists _, world'. split; [reflexivity|].
    cbn [fst]. split; [eauto | intros _].
    cbn. now destruct (message_or "Unknown error occurred" e).
Qed.

Lemma listed_words_are_plain d w :
  In w (wordLists d) -> nonempty w = true /\ encodeURIComponent w = w.
Proof.
  assert (H : forallb (fun x => nonempty x && String.eqb (encodeURIComponent x) x)
                (wordLists d) = true) by (destruct d; reflexivity).
  intros Hin. rewrite forallb_forall in H. specialize (H w Hin).
  apply andb_true_iff in H as [Hn He]. now apply String.eqb_eq in He.
Qed.

(** X12. With a valid difficulty and any draw, [getRandomWord]
    draws once and then sends exactly one request, to the English
    endpoint followed by a word of the chosen list written as it is (no
    character of a listed word needs escaping); the inner validation of
    the chosen word never fails. *)
Theorem random_word_sends_one_english_request fields d world :
  get_property "difficulty" fields = difficulty_value d ->
  exists chosen tail,
    In chosen (wordLists (difficulty_or_medium d)) /\
    trace (snd (getRandomWord (JObject fields) world)) =
    (trace world
     ++ EvRandom
        :: EvFetch ("https://api.dictionaryapi.dev/api/v2/entries/en/" ++ chosen)
        :: tail)%list /\
    (tail = [] \/ tail = [EvJson]) /\
    (forall issues,
        fst (getRandomWord (JObject fields) world)
        <> Throw (JsError "ZodError" (zod_message issues))).
Proof.
  intros Hd.
  set (words := wordLists (difficulty_or_medium d)).
  assert (Hlen : 0 < List.length words)
    by (unfold words; destruct d as [[| |]|]; cbn; lia).
  destruct (index_word_in words _
              (random_index_range (random_source world (draws world)) _ Hlen))
    as (chosen & _ & Hin & Hword).
  destruct (listed_words_are_plain _ _ Hin) as [Hne Henc].
  assert (Hv : valid_definition_args
                 [("word", JString chosen); ("language", JString "en")]
                 chosen (Some "en")) by (repeat split; assumption).
  assert (Hrun : getRandomWord (JObject fields) world =
                 getWordDefinition
                   (JObject [("word", JString chosen); ("language", JString "en")])
                   (log EvRandom world)).
  { unfold getRandomWord, bind, lift, Math_random.
    rewrite (parse_difficulty _ _ Hd).
    fold (difficulty_or_medium d). fold words. now rewrite Hword. }
  destruct (getWordDefinition_valid_trace _ _ _ (log EvRandom world) Hv)
    as (tail & Ht & Hshape).
  exists chosen, tail. rewrite Hrun. repeat split; try assumption.
  - rewrite Ht, trace_log, <- app_assoc.
    unfold request_url, api_url. cbn [language_or_en]. now rewrite Henc.
  - intros issues. rewrite (getWordDefinition_valid _ _ _ _ Hv).
    unfold try_catch, throw.
    destruct (fetch_definition _ _ _) as [[res|e] world1]; cbn [fst];
      discriminate.
Qed.

End Fetching.

(** * Further properties: the word in the URL *)


Lemma hex_digit_inj (a b : nat) :
  a < 16 -> b < 16 -> hex_digit a = hex_digit b -> a = b.
Proof.
  intros Ha Hb H.
  do 16 (destruct a as [|a];
         [ do 16 (destruct b as [|b];
                  [ first [reflexivity | cbv in H; discriminate H] | ]); lia | ]).
  lia.
Qed.

Lemma byte_high_digit (c : ascii) : nat_of_ascii c / 16 < 16.
Proof.
  apply Nat.Div0.div_lt_upper_bound. pose proof (nat_ascii_bounded c). lia.
Qed.

Lemma byte_low_digit (c : ascii) : nat_of_ascii c mod 16 < 16.
Proof. apply Nat.mod_upper_bound. discriminate. Qed.

Lemma byte_of_digits (c1 c2 : ascii) :
  hex_digit (nat_of_ascii c1 / 16) = hex_digit (nat_of_ascii c2 / 16) ->
  hex_digit (nat_of_ascii c1 mod 16) = hex_digit (nat_of_ascii c2 mod 16) ->
  c1 = c2.
Proof.
  intros Hhi Hlo.
  apply hex_digit_inj in Hhi; try apply byte_high_digit.
  apply hex_digit_inj in Hlo; try apply byte_low_digit.
  rewrite <- (ascii_nat_embedding c1), <- (ascii_nat_embedding c2).
  f_equal.
  rewrite (Nat.div_mod_eq (nat_of_ascii c1) 16), (Nat.div_mod_eq (nat_of_ascii c2) 16).
  now rewrite Hhi, Hlo.
Qed.

Lemma encodeURIComponent_length (s : string) :
  String.length s <= String.length (encodeURIComponent s).
Proof.
  induction s as [|c s IH]; cbn [encodeURIComponent String.length]; [lia|].
  destruct (unreserved c); cbn [String.length]; lia.
Qed.

(** X13. [encodeURIComponent] is injective: two different words are
    never sent to the same URL path segment. *)
Theorem encodeURIComponent_injective (s1 s2 : string) :
  encodeURIComponent s1 = encodeURIComponent s2 -> s1 = s2.
Proof.
  revert s2. induction s1 as [|c1 s1 IH]; intros [|c2 s2];
    cbn [encodeURIComponent].
  - reflexivity.
  - destruct (unreserved c2); discriminate.
  - destruct (unreserved c1); discriminate.
  - destruct (unreserved c1) eqn:U1, (unreserved c2) eqn:U2; intros H.
    + injection H as -> H. f_equal. now apply IH.
    + injection H as -> _. discriminate U1.
    + injection H as <- _. discriminate U2.
    + injection H as Hhi Hlo H.
      rewrite (byte_of_digits _ _ Hhi Hlo). f_equal. now apply IH.
Qed.


(** X15. A word is sent as it is exactly when all its characters are
    unreserved; every other word is changed by the encoding, and the
    encoding never shortens a word. *)
Theorem encodeURIComponent_fixes_plain_words (s : string) :
  (encodeURIComponent s = s <->
   forallb unreserved (list_ascii_of_string s) = true) /\
  String.length s <= String.length (encodeURIComponent s).
Proof.
  split; [|apply encodeURIComponent_length].
  induction s as [|c s IH]; cbn [encodeURIComponent list_ascii_of_string forallb].
  - split; reflexivity.
  - destruct (unreserved c) eqn:U; cbn [andb].
    + rewrite <- IH. split; [intros H; now injection H | now intros ->].
    + split; [|discriminate].
      intros H. injection H as _ H. exfalso.
      pose proof (encodeURIComponent_length s) as Hlen.
      rewrite <- H in Hlen at 1. cbn [String.length] in Hlen. lia.
Qed.

(** * Further properties: the formatted text *)

Lemma numbered_cons {A : Type} (block : nat -> A -> string) x (l : list A) start :
  numbered block (x :: l) start = block start x ++ numbered block l (S start).
Proof. reflexivity. Qed.

Lemma numbered_map {A B : Type} (f : A -> B) (block : nat -> B -> string)
    (l : list A) start :
  numbered block (map f l) start = numbered (fun i a => block i (f a)) l start.
Proof.
  revert start. induction l as [|x l IH]; intros start; [reflexivity|].
  cbn [map]. now rewrite !numbered_cons, IH.
Qed.

Lemma forEach_numbered {A : Type} (callback : A -> nat -> string -> completion string)
    (block : nat -> A -> string) (good : A -> bool) :
  (forall x index result,
      good x = true -> callback x index result = Return (result ++ block index x)) ->
  forall l index result,
    forallb good l = true ->
    forEach callback l index result = Return (result ++ numbered block l index).
Proof.
  intros Hcb l. induction l as [|x l IH]; intros index result Hl.
  - cbn. now rewrite append_empty_r.
  - cbn [forallb] in Hl. apply andb_true_iff in Hl as [Hx Hl].
    cbn [forEach]. rewrite (Hcb _ _ _ Hx), (IH _ _ Hl), numbered_cons.
    now rewrite append_assoc.
Qed.

Lemma forallb_always {A : Type} (l : list A) : forallb (fun _ => true) l = true.
Proof. now induction l. Qed.

Lemma add_definition_block def defIndex result :
  add_definition def defIndex result = Return (result ++ definition_block defIndex def).
Proof.
  unfold add_definition, definition_block, example_line, truthy.
  destruct (example def) as [[|c s]|]; cbn [template]; str_norm.
Qed.

Lemma add_meaning_block meaning index result :
  (match definitions meaning with Some _ => true | None => false end) = true ->
  add_meaning meaning index result = Return (result ++ meaning_block index meaning).
Proof.
  unfold add_meaning, meaning_block.
  destruct (definitions meaning) as [defs|]; [intros _|discriminate].
  rewrite (forEach_numbered add_definition definition_block (fun _ => true)
             (fun x i r _ => add_definition_block x i r) defs 0 _
             (forallb_always defs)).
  str_norm.
Qed.

Lemma add_meanings_block entry ms result :
  meanings entry = Some ms ->
  meanings_complete entry = true ->
  add_meanings entry result =
  Return (result ++ "**Meanings:**" ++ nl ++ nl ++ numbered meaning_block ms 0).
Proof.
  unfold add_meanings, meanings_complete. intros -> Hc.
  rewrite (forEach_numbered add_meaning meaning_block _ add_meaning_block ms 0 _ Hc).
  str_norm.
Qed.

Lemma add_meanings_throws entry result :
  meanings_complete entry = false ->
  add_meanings entry result = Throw (undefined_read "forEach").
Proof.
  unfold add_meanings, meanings_complete.
  destruct (meanings entry) as [ms|]; [|reflexivity].
  generalize 0 as index.
  match goal with |- context [forEach _ _ _ ?r] => generalize r end.
  induction ms as [|m ms IH]; intros r index Hc; [discriminate|].
  cbn [forallb] in Hc. cbn [forEach].
  destruct (definitions m) as [defs|] eqn:Hd.
  - rewrite add_meaning_block by now rewrite Hd.
    now apply IH.
  - unfold add_meaning. now rewrite Hd.
Qed.

Lemma audioLinks_nonempty ps : audioLinks ps = map Some (nonempty_audios ps).
Proof.
  unfold audioLinks.
  induction ps as [|p ps IH]; [reflexivity|].
  cbn [filter nonempty_audios flat_map]. fold (nonempty_audios ps).
  destruct (audio p) as [[|c s]|] eqn:Ha; cbn [truthy app]; try exact IH.
  cbn [map filter]. rewrite Ha. cbn [truthy]. now rewrite IH.
Qed.

Lemma add_audio_block entry ps result :
  phonetics entry = Some ps ->
  add_audio entry result = Return (result ++ audio_block ps).
Proof.
  intros Hp. unfold add_audio, audio_block. rewrite Hp, audioLinks_nonempty.
  destruct (nonempty_audios ps) as [|a rest].
  - cbn. now rewrite append_empty_r.
  - cbn [map List.length Nat.ltb Nat.leb].
    change (Some a :: map Some rest) with (map Some (a :: rest)).
    rewrite (forEach_numbered add_audio_link
               (fun i o => audio_line i (template o)) (fun _ => true)).
    + rewrite (numbered_map Some (fun i o => audio_line i (template o))).
      cbn [template]. str_norm.
    + intros x i r _. unfold add_audio_link, audio_line. str_norm.
    + apply forallb_always.
Qed.

Lemma add_origin_block entry result :
  add_origin entry result = result ++ origin_block entry.
Proof.
  unfold add_origin, origin_block, truthy.
  destruct (origin entry) as [[|c s]|]; cbn [template];
    try (now rewrite append_empty_r); reflexivity.
Qed.

(** X16. Formatting returns a text exactly for complete entries.  An
    entry whose [meanings], or the [definitions] of one of its meanings,
    are missing makes it throw the [TypeError] of reading [forEach] of
    [undefined]; an entry with complete meanings but no [phonetics] makes
    it throw the one of reading [filter]. *)
Theorem format_entry_outcome entry :
  ((exists t, format_entry entry = Return t) <-> complete entry = true) /\
  (meanings_complete entry = false ->
   format_entry entry = Throw (undefined_read "forEach")) /\
  (meanings_complete entry = true -> phonetics entry = None ->
   format_entry entry = Throw (undefined_read "filter")).
Proof.
  assert (Hmeanings : meanings_complete entry = false ->
                      format_entry entry = Throw (undefined_read "forEach")).
  { intros Hc. unfold format_entry. now rewrite add_meanings_throws. }
  assert (Haudio : meanings_complete entry = true -> phonetics entry = None ->
                   format_entry entry = Throw (undefined_read "filter")).
  { intros Hc Hp. unfold format_entry.
    match goal with
    | |- context [add_meanings entry ?r] =>
        destruct (add_meanings_returns entry r Hc) as [t ->]
    end.
    unfold add_audio. now rewrite Hp. }
  split; [|split; assumption].
  split; [|apply format_entry_returns].
  intros [t Ht]. unfold complete.
  destruct (meanings_complete entry) eqn:Hc;
    [|rewrite Hmeanings in Ht by reflexivity; discriminate].
  destruct (phonetics entry) eqn:Hp; [reflexivity|].
  rewrite Haudio in Ht by reflexivity. discriminate.
Qed.

(** X17. The text of a complete entry is, in this order: the header and
    a blank line; the pronunciation line if any; the origin line when
    [origin] is a non-empty string; the meanings header; for the [k]-th
    meaning its block numbered [k + 1], holding its definitions numbered
    from 1 again, each with its example line when the example is not
    empty and its synonyms and antonyms lines when those lists are not
    empty, and closed by a blank line; then, when some [audio] is not
    empty, the audio header and the non-empty audios numbered from 1. *)
Theorem format_entry_text entry :
  complete entry = true -> format_entry entry = Return (entry_text entry).
Proof.
  unfold complete, entry_text.
  destruct (phonetics entry) as [ps|] eqn:Hp; [|discriminate].
  intros Hc.
  assert (Hms : exists ms, meanings entry = Some ms).
  { unfold meanings_complete in Hc. destruct (meanings entry); [eauto|discriminate]. }
  destruct Hms as [ms Hms]. rewrite Hms.
  unfold format_entry.
  rewrite (add_meanings_block _ _ _ Hms Hc), (add_audio_block _ _ _ Hp).
  rewrite add_origin_block, add_phonetic_shown.
  str_norm.
Qed.

(** * More concrete runs *)

Lemma unknown_tool_reports_name_witness :
  handle_call_tool (printer := sample_printer) "define" JNull world_hello =
  (Return (text_result "Error: Unknown tool: define"), world_hello).
Proof.
  apply (unknown_tool_reports_name (printer := sample_printer)
           "define" JNull world_hello); discriminate.
Defined.

Lemma listed_tools_are_the_dispatched_ones_witness :
  fst (call_tool (printer := sample_printer) "get_random_word" JNull world_hello)
  <> Throw (new_Error "Unknown tool: get_random_word").
Proof.
  apply (proj1 (listed_tools_are_the_dispatched_ones (printer := sample_printer)
                  "get_random_word")).
  right. now left.
Defined.

Lemma required_keys_are_enforced_witness :
  exists issues,
    call_tool (printer := sample_printer) "get_word_definition"
      (JObject [("language", JString "en")]) world_hello =
    (Throw (JsError "ZodError" (sample_printer issues)), world_hello).
Proof.
  apply (required_keys_are_enforced (printer := sample_printer)
           get_word_definition_tool "word" [("language", JString "en")] world_hello).
  - now left.
  - now left.
  - reflexivity.
Defined.

Lemma declared_defaults_are_applied_witness :
  call_tool (printer := sample_printer) "get_word_definition"
    (JObject [("word", JString "hello"); ("language", JString "en")]) world_hello =
  call_tool (printer := sample_printer) "get_word_definition"
    (JObject hello_fields) world_hello.
Proof.
  apply (declared_defaults_are_applied (printer := sample_printer)
           get_word_definition_tool "language"
           {| prop_type := "string";
              prop_description := "Language code (default: en)";
              prop_enum := None;
              prop_default := Some "en" |}
           "en" hello_fields
           [("word", JString "hello"); ("language", JString "en")] world_hello).
  - now left.
  - right. now left.
  - reflexivity.
  - reflexivity.
  - reflexivity.
  - intros k Hk. cbn [get_property hello_fields].
    destruct (String.eqb k "word"); [reflexivity|].
    destruct (String.eqb k "language") eqn:E; [|reflexivity].
    apply String.eqb_eq in E. contradiction.
Defined.

Lemma declared_enum_is_the_accepted_one_witness :
  exists d,
    parse (printer := sample_printer) GetRandomWordArgsSchema
      (JObject [("difficulty", JString "hard")]) = Return (Some d).
Proof.
  apply (proj1 (declared_enum_is_the_accepted_one (printer := sample_printer)
                  get_random_word_tool "difficulty"
                  {| prop_type := "string";
                     prop_description := "Difficulty level of the random word";
                     prop_enum := Some ["easy"; "medium"; "hard"];
                     prop_default := Some "medium" |}
                  ["easy"; "medium"; "hard"] "hard"
                  [("difficulty", JString "hard")]
                  (or_intror (or_introl eq_refl)) (or_introl eq_refl)
                  eq_refl eq_refl)).
  right. right. now left.
Defined.

Lemma definition_args_accepted_iff_witness :
  parse (printer := sample_printer) GetDefinitionArgsSchema (JObject hello_fields) =
    Return ("hello", None) /\
  getWordDefinition (printer := sample_printer) (JArray []) world_hello =
    (Throw (JsError "ZodError" "Invalid input"), world_hello).
Proof.
  split.
  - apply (proj1 (definition_args_accepted_iff (printer := sample_printer)
                    (JObject hello_fields) "hello" None)).
    exists hello_fields. split; [reflexivity | exact hello_request_valid].
  - apply (proj2 (definition_args_accepted_iff (printer := sample_printer)
                    (JArray []) "hello" None)).
    reflexivity.
Defined.

Lemma random_args_accepted_iff_witness :
  parse (printer := sample_printer) GetRandomWordArgsSchema (JObject []) = Return None /\
  getRandomWord (printer := sample_printer)
    (JObject [("difficulty", JString "extreme")]) world_hello =
    (Throw (JsError "ZodError" "Invalid input"), world_hello).
Proof.
  split.
  - apply (proj1 (random_args_accepted_iff (printer := sample_printer)
                    (JObject []) None)).
    exists []. split; reflexivity.
  - apply (proj2 (random_args_accepted_iff (printer := sample_printer)
                    (JObject [("difficulty", JString "extreme")]) None)).
    reflexivity.
Defined.

Lemma network_failure_is_wrapped_witness :
  fst (handle_call_tool (printer := sample_printer)
         "get_word_definition" (JObject hello_fields) world_offline) =
  Return (text_result
            ("Error: Failed to fetch definition for " ++ dq ++ "hello" ++ dq
             ++ ": fetch failed")).
Proof.
  destruct (network_failure_is_wrapped (printer := sample_printer)
              hello_fields "hello" None world_offline fetch_failed
              hello_request_valid eq_refl) as (_ & Hrun & _).
  rewrite Hrun. reflexivity.
Defined.

Lemma decode_failure_is_wrapped_witness :
  fst (handle_call_tool (printer := sample_printer)
         "get_word_definition" (JObject hello_fields) world_garbled) =
  Return (text_result
            ("Error: Failed to fetch definition for " ++ dq ++ "hello" ++ dq
             ++ ": Unexpected end of JSON input")).
Proof.
  destruct (decode_failure_is_wrapped (printer := sample_printer)
              hello_fields "hello" None world_garbled
              {| status := 200; statusText := "OK";
                 json_body := JsonRejected syntax_error |}
              syntax_error hello_request_valid eq_refl eq_refl eq_refl)
    as (_ & Hrun & _).
  rewrite Hrun. reflexivity.
Defined.

Lemma getWordDefinition_makes_one_attempt_witness :
  exists tail,
    trace (snd (getWordDefinition (printer := sample_printer)
                  (JObject hello_fields) world_garbled)) = tail /\
    (tail = [] \/ exists url, tail = [EvFetch url] \/ tail = [EvFetch url; EvJson]).
Proof.
  destruct (getWordDefinition_makes_one_attempt (printer := sample_printer)
              (JObject hello_fields) world_garbled) as (tail & Ht & Hshape & _).
  exists tail. split; [exact Ht | exact Hshape].
Defined.

Lemma error_prefix_iff_thrown_witness :
  exists t world',
    handle_call_tool (printer := sample_printer)
      "get_word_definition" (JObject hello_fields) world_offline =
    (Return (text_result t), world') /\
    String.prefix "Error: " t = true.
Proof.
  destruct (error_prefix_iff_thrown (printer := sample_printer)
              "get_word_definition" (JObject hello_fields) world_offline)
    as (t & world' & Hrun & Hiff).
  exists t, world'. split; [exact Hrun|].
  apply Hiff. eexists. reflexivity.
Defined.

Lemma random_word_sends_one_english_request_witness :
  exists chosen tail,
    In chosen (wordLists medium) /\
    trace (snd (getRandomWord (printer := sample_printer) (JObject []) world_garbled)) =
    EvRandom
    :: EvFetch ("https://api.dictionaryapi.dev/api/v2/entries/en/" ++ chosen)
    :: tail.
Proof.
  destruct (random_word_sends_one_english_request (printer := sample_printer)
              [] None world_garbled eq_refl)
    as (chosen & tail & Hin & Ht & _).
  exists chosen, tail. split; [exact Hin | exact Ht].
Defined.

Lemma encodeURIComponent_injective_witness :
  encodeURIComponent "a b/c" = "a%20b%2Fc" /\ "a b/c" = "a b/c".
Proof.
  split; [reflexivity|].
  apply (encodeURIComponent_injective "a b/c" "a b/c"). reflexivity.
Defined.


Lemma encodeURIComponent_fixes_plain_words_witness :
  encodeURIComponent "serendipity" = "serendipity".
Proof.
  apply (proj2 (proj1 (encodeURIComponent_fixes_plain_words "serendipity"))).
  reflexivity.
Defined.

Lemma format_entry_outcome_witness :
  format_entry hollow_entry = Throw (undefined_read "forEach") /\
  format_entry bare_entry = Throw (undefined_read "filter") /\
  exists t, format_entry hello_entry = Return t.
Proof.
  split; [|split].
  - apply (proj1 (proj2 (format_entry_outcome hollow_entry))). reflexivity.
  - apply (proj2 (proj2 (format_entry_outcome bare_entry))); reflexivity.
  - apply (proj2 (proj1 (format_entry_outcome hello_entry))). reflexivity.
Defined.

Lemma format_entry_text_witness :
  format_entry hello_entry = Return (entry_text hello_entry).
Proof. apply (format_entry_text hello_entry). reflexivity. Defined.

(** * Further properties: empty bodies and independence of calls *)

Section Independence.

Context {printer : ZodPrinter}.

(** X18. A validated call answered with a 2xx status and the JSON body
    [null] returns the same short "No definition found" text as for the
    empty array, after one fetch and one decode, and formats nothing. *)
Theorem null_body_is_not_found fields w language world r :
  valid_definition_args fields w language ->
  network world (request_url language w) = FetchResolved r ->
  ok r = true ->
  json_body r = JsonResolved None ->
  getWordDefinition (JObject fields) world =
  (Return (text_result ("No definition found for " ++ dq ++ w ++ dq ++ ".")),
   log EvJson (log (EvFetch (request_url language w)) world)).
Proof.
  intros Hv Hnet Hok Hbody.
  now rewrite (getWordDefinition_ok _ _ _ _ Hv _ Hnet _ Hok Hbody).
Qed.

Lemma getWordDefinition_reads_network_only args world1 world2 :
  (forall url, network world1 url = network world2 url) ->
  fst (getWordDefinition args world1) = fst (getWordDefinition args world2).
Proof.
  intros Hnet. unfold getWordDefinition, bind, lift.
  destruct (parse GetDefinitionArgsSchema args) as [[w language]|e];
    [|reflexivity].
  unfold try_catch, fetch_definition, bind, fetch, json, lift, ret, throw.
  rewrite Hnet.
  destruct (network world2 _) as [r|e]; [|reflexivity].
  destruct (ok r); cbn [negb].
  - destruct (json_body r) as [[[|entry others]|]|e]; try reflexivity.
    destruct (format_entry entry); reflexivity.
  - destruct (status r =? 404)%N; reflexivity.
Qed.

(** X19. A call keeps no state: what the handler answers depends only on
    the tool name, the arguments, the replies of the network and the
    next random draw, not on anything recorded by earlier calls. *)
Theorem answer_is_independent_of_history name args world1 world2 :
  (forall url, network world1 url = network world2 url) ->
  random_source world1 (draws world1) = random_source world2 (draws world2) ->
  fst (handle_call_tool name args world1) = fst (handle_call_tool name args world2).
Proof.
  intros Hnet Hdraw.
  assert (Hcall : fst (call_tool name args world1) = fst (call_tool name args world2)).
  { unfold call_tool.
    destruct (String.eqb name "get_word_definition");
      [now apply getWordDefinition_reads_network_only|].
    destruct (String.eqb name "get_random_word"); [|reflexivity].
    unfold getRandomWord, bind, lift, Math_random.
    destruct (parse GetRandomWordArgsSchema args) as [d|e]; [|reflexivity].
    rewrite Hdraw. now apply getWordDefinition_reads_network_only. }
  unfold handle_call_tool, try_catch, ret.
  destruct (call_tool name args world1) as [[r1|e1] w1],
           (call_tool name args world2) as [[r2|e2] w2];
    cbn [fst] in *; congruence.
Qed.

End Independence.

Lemma null_body_is_not_found_witness :
  fst (getWordDefinition (printer := sample_printer) (JObject hello_fields) world_null) =
  Return (text_result ("No definition found for " ++ dq ++ "hello" ++ dq ++ ".")).
Proof.
  rewrite (null_body_is_not_found (printer := sample_printer)
             hello_fields "hello" None world_null
             {| status := 200; statusText := "OK"; json_body := JsonResolved None |}
             hello_request_valid eq_refl eq_refl eq_refl).
  reflexivity.
Defined.

Lemma answer_is_independent_of_history_witness :
  fst (handle_call_tool (printer := sample_printer)
         "get_random_word" (JObject []) (log EvRandom (log EvJson world_empty))) =
  fst (handle_call_tool (printer := sample_printer)
         "get_random_word" (JObject []) world_empty).
Proof.
  apply (answer_is_independent_of_history (printer := sample_printer)
           "get_random_word" (JObject [])
           (log EvRandom (log EvJson world_empty)) world_empty).
  - intros url. reflexivity.
  - reflexivity.
Defined.
